(** * MatrixBench: a shallow embedding of [bench/MatrixBench.cpp]

    The file under study is a timing harness: five benchmark classes derived
    from [MatrixBench], a global counter used to defeat dead-code
    elimination, and five registrations.  The development below embeds the
    classes as state transformers over an explicit program state (the global
    counter together with the fields of the benchmark object) and proves the
    properties stated about them. *)

From Stdlib Require Import ZArith QArith Qcanon Lia.
From Stdlib Require Import Floats.SpecFloat.
From Stdlib Require Import Qpower.
From stdpp Require Import base numbers fin vector list strings.
From Equations Require Import Equations.

Set Default Proof Using "Type".
Local Open Scope Z_scope.

(** ** Machine integers

    [int] is a 32-bit two's complement integer.  Arithmetic on it is written
    with its wrap-around made explicit. *)

Definition INT_MIN : Z := - 2 ^ 31.
Definition INT_MAX : Z := 2 ^ 31 - 1.

Definition wrap_int (z : Z) : Z := (z + 2 ^ 31) mod 2 ^ 32 - 2 ^ 31.

(** ** Floating-point formats

    [float] is IEEE 754 binary32 and [double] is binary64.  The operations
    are those of [SpecFloat] at the two precisions; every operation rounds
    its exact result to nearest-even in the format of its operands. *)

Module IEEE.

Definition prec32 : Z := 24.
Definition emax32 : Z := 128.
Definition prec64 : Z := 53.
Definition emax64 : Z := 1024.

Variant float32 := F32 (x : spec_float).
Variant float64 := F64 (x : spec_float).

Definition bits32 (x : float32) : spec_float := let 'F32 v := x in v.
Definition bits64 (x : float64) : spec_float := let 'F64 v := x in v.

(** Conversion of a value to the format with precision [prec]: exact when
    the value is representable, rounded to nearest-even otherwise. *)
Definition convert (prec emax : Z) (x : spec_float) : spec_float :=
  match x with
  | S754_finite s m e => binary_round prec emax s m e
  | _ => x
  end.

Definition mul32 (x y : float32) : float32 :=
  F32 (SFmul prec32 emax32 (bits32 x) (bits32 y)).
Definition add32 (x y : float32) : float32 :=
  F32 (SFadd prec32 emax32 (bits32 x) (bits32 y)).
Definition mul64 (x y : float64) : float64 :=
  F64 (SFmul prec64 emax64 (bits64 x) (bits64 y)).
Definition add64 (x y : float64) : float64 :=
  F64 (SFadd prec64 emax64 (bits64 x) (bits64 y)).

(** [(double)x] for a [float] x. *)
Definition widen (x : float32) : float64 :=
  F64 (convert prec64 emax64 (bits32 x)).
(** [static_cast<float>(x)] for a [double] x. *)
Definition narrow (x : float64) : float32 :=
  F32 (convert prec32 emax32 (bits64 x)).

(** The value [m * 2^e] as a number of the given format. *)
Definition of_Z32 (m e : Z) : float32 :=
  F32 (binary_normalize prec32 emax32 m e false).
Definition of_Z64 (m e : Z) : float64 :=
  F64 (binary_normalize prec64 emax64 m e false).

(** The exact rational value of a finite number; zero for the others. *)
Definition SF2Q (x : spec_float) : Q :=
  match x with
  | S754_finite s m e =>
      let v := (inject_Z (Z.pos m) * Qpower 2 e)%Q in
      if s then Qopp v else v
  | _ => 0%Q
  end.

End IEEE.

(** ** Interpretations of the arithmetic

    The benchmark bodies are written once, over an interpretation of the two
    C++ arithmetic types.  Two interpretations are used: the machine one
    (IEEE binary32 and binary64) and the exact one, in which both types are
    the rationals and the conversions are the identity. *)

Class Arith := {
  float : Type;
  double : Type;
  fmul : float -> float -> float;
  fadd : float -> float -> float;
  dmul : double -> double -> double;
  dadd : double -> double -> double;
  float_to_double : float -> double;
  double_to_float : double -> float;
  lit_0f : float;     (* 0.0f *)
  lit_1f : float;     (* 1.0f *)
  lit_1_5f : float;   (* 1.5f *)
  lit_0 : double;     (* 0.0 *)
  lit_1 : double;     (* 1.0 *)
}.

Definition ieee_arith : Arith := {|
  float := IEEE.float32;
  double := IEEE.float64;
  fmul := IEEE.mul32;
  fadd := IEEE.add32;
  dmul := IEEE.mul64;
  dadd := IEEE.add64;
  float_to_double := IEEE.widen;
  double_to_float := IEEE.narrow;
  lit_0f := IEEE.F32 (S754_zero false);
  lit_1f := IEEE.of_Z32 1 0;
  lit_1_5f := IEEE.of_Z32 3 (-1);
  lit_0 := IEEE.F64 (S754_zero false);
  lit_1 := IEEE.of_Z64 1 0;
|}.

Definition exact_arith : Arith := {|
  float := Qc;
  double := Qc;
  fmul := Qcmult;
  fadd := Qcplus;
  dmul := Qcmult;
  dadd := Qcplus;
  float_to_double := fun x => x;
  double_to_float := fun x => x;
  lit_0f := 0%Qc;
  lit_1f := 1%Qc;
  lit_1_5f := Q2Qc (3 # 2);
  lit_0 := 0%Qc;
  lit_1 := 1%Qc;
|}.

(** ** The library the benchmarks drive

    [SkMatrix], [SkScalar] and [SkRandom] are declared in headers that are
    not part of the file under study.  They are taken as an interface; the
    benchmark bodies and every theorem quantify over its implementations. *)

Class SkiaLib `{Arith} := {
  SkScalar : Type;
  SkMatrix : Type;
  SkRandom : Type;
  (* conversions between scalars and the arithmetic types *)
  SkFloatToScalar : float -> SkScalar;
  SkScalarToFloat : SkScalar -> float;
  SkScalarToDouble : SkScalar -> double;
  (* SkMatrix: default construction, the setters, and the observers *)
  SkMatrix_default : SkMatrix;
  reset : SkMatrix -> SkMatrix;
  setScale : SkScalar -> SkScalar -> SkMatrix -> SkMatrix;
  setTranslate : SkScalar -> SkScalar -> SkMatrix -> SkMatrix;
  preScale : SkScalar -> SkScalar -> SkMatrix -> SkMatrix;
  mat_eq : SkMatrix -> SkMatrix -> bool;      (* operator== *)
  getType : SkMatrix -> Z;                    (* the type mask, as an int *)
  (* SkRandom: default construction and one draw *)
  SkRandom_default : SkRandom;
  nextSScalar1 : SkRandom -> SkScalar * SkRandom;
}.

(** The one law of the library the benchmarks rely on: matrices that were
    both reset compare equal. *)
Definition reset_matrices_equal `{SkiaLib} : Prop :=
  forall m m' : SkMatrix, mat_eq (reset m) (reset m') = true.

(** ** Program state

    The state a call can touch: the global counter and the fields of the
    benchmark object the method is called on. *)

Record World (Obj : Type) := mkWorld {
  gMatrixBench_NonStaticGlobal : Z;
  self : Obj;
}.
Arguments mkWorld {Obj} _ _.
Arguments gMatrixBench_NonStaticGlobal {Obj} _.
Arguments self {Obj} _.

Definition set_self {Obj} (o : Obj) (w : World Obj) : World Obj :=
  mkWorld (gMatrixBench_NonStaticGlobal w) o.

(** ** class MatrixBench *)

Record MatrixBench := { fName : string }.

Definition N : Z := 100000.

(** [fName.printf("matrix_%s", name)] *)
Definition MatrixBench_ctor (name : string) : MatrixBench :=
  {| fName := "matrix_" +:+ name |}.

(** The virtual interface: a derived class supplies [performTest] and
    carries the [MatrixBench] sub-object. *)
Class MatrixBenchClass (Obj : Type) := {
  INHERITED : Obj -> MatrixBench;
  performTest : World Obj -> World Obj;
}.

Definition onGetName `{MatrixBenchClass Obj} (o : Obj) : string :=
  fName (INHERITED o).

Section OnDraw.
Context {S : Type} (body : S -> S).

(** [for (int i = 0; i < N; i++) body;] from the state in which the
    counter holds [i]. *)
Equations? for_loop (i : Z) (s : S) : S by wf (Z.to_nat (N - i)) lt :=
  for_loop i s with decide (i < N) := {
    | left _ => for_loop (wrap_int (i + 1)) (body s)
    | right _ => s }.
Proof.
  assert (i < wrap_int (i + 1)) as Hadv; [|lia].
  unfold wrap_int, N in *. destruct (decide (- 2 ^ 31 <= i)) as [Hlo|Hlo].
  - rewrite Z.mod_small; lia.
  - pose proof (Z.mod_pos_bound (i + 1 + 2 ^ 31) (2 ^ 32) ltac:(lia)). lia.
Qed.
End OnDraw.

(** [MatrixBench::onDraw]; the canvas argument is not used. *)
Definition onDraw `{MatrixBenchClass Obj} (w : World Obj) : World Obj :=
  for_loop performTest 0 w.

(** Instrumentation used to count calls: the body paired with a tally. *)
Definition counting {S : Type} (body : S -> S) (cs : nat * S) : nat * S :=
  (Datatypes.S (fst cs), body (snd cs)).

(** ** The dead-code elimination guard *)

(** [++gMatrixBench_NonStaticGlobal] *)
Definition incr_global {Obj} (w : World Obj) : World Obj :=
  mkWorld (wrap_int (gMatrixBench_NonStaticGlobal w + 1)) (self w).

(** [always_do(pred)] *)
Definition always_do {Obj} (pred : bool) (w : World Obj) : World Obj :=
  if pred then incr_global w else w.

(** An [int] used as a condition is true when it is not zero. *)
Definition int_to_bool (z : Z) : bool := negb (z =? 0).

(** ** class EqualsMatrixBench *)

Module EqualsMatrixBench.
Section WithLib.
Context `{SkiaLib}.

Record t := { base : MatrixBench }.

Definition ctor : t := {| base := MatrixBench_ctor "equals" |}.

Definition performTest (w : World t) : World t :=
  let m0 := SkMatrix_default in
  let m1 := SkMatrix_default in
  let m2 := SkMatrix_default in
  let m0 := reset m0 in
  let m1 := reset m1 in
  let m2 := reset m2 in
  let w := always_do (mat_eq m0 m1) w in
  let w := always_do (mat_eq m1 m2) w in
  let w := always_do (mat_eq m2 m0) w in
  let w := always_do (int_to_bool (getType m0)) w in
  let w := always_do (int_to_bool (getType m1)) w in
  let w := always_do (int_to_bool (getType m2)) w in
  w.

Definition bench : MatrixBenchClass t :=
  Build_MatrixBenchClass t base performTest.
End WithLib.
End EqualsMatrixBench.

(** ** class ScaleMatrixBench *)

Module ScaleMatrixBench.
Section WithLib.
Context `{SkiaLib}.

Record t := {
  base : MatrixBench;
  fM0 : SkMatrix; fM1 : SkMatrix; fM2 : SkMatrix;
  fSX : SkScalar; fSY : SkScalar;
}.

Definition set_fM0 (m : SkMatrix) (o : t) : t :=
  {| base := base o; fM0 := m; fM1 := fM1 o; fM2 := fM2 o;
     fSX := fSX o; fSY := fSY o |}.
Definition set_fM1 (m : SkMatrix) (o : t) : t :=
  {| base := base o; fM0 := fM0 o; fM1 := m; fM2 := fM2 o;
     fSX := fSX o; fSY := fSY o |}.
Definition set_fM2 (m : SkMatrix) (o : t) : t :=
  {| base := base o; fM0 := fM0 o; fM1 := fM1 o; fM2 := m;
     fSX := fSX o; fSY := fSY o |}.
Definition set_fSX (x : SkScalar) (o : t) : t :=
  {| base := base o; fM0 := fM0 o; fM1 := fM1 o; fM2 := fM2 o;
     fSX := x; fSY := fSY o |}.
Definition set_fSY (y : SkScalar) (o : t) : t :=
  {| base := base o; fM0 := fM0 o; fM1 := fM1 o; fM2 := fM2 o;
     fSX := fSX o; fSY := y |}.

(** The object as it is when the constructor body starts: the base
    sub-object is constructed, the matrices are default-constructed, and
    the two scalars hold whatever the storage held ([rawX], [rawY]). *)
Definition at_entry (rawX rawY : SkScalar) : t :=
  {| base := MatrixBench_ctor "scale";
     fM0 := SkMatrix_default; fM1 := SkMatrix_default;
     fM2 := SkMatrix_default;
     fSX := rawX; fSY := rawY |}.

(** The four statements of the constructor body, in source order. *)
Definition ctor_reset (o : t) : t := set_fM0 (reset (fM0 o)) o.
Definition ctor_setScale (o : t) : t :=
  set_fM1 (setScale (fSX o) (fSY o) (fM1 o)) o.
Definition ctor_setTranslate (o : t) : t :=
  set_fM2 (setTranslate (fSX o) (fSY o) (fM2 o)) o.
(** [fSX = fSY = SkFloatToScalar(1.5f)]: [fSY] is assigned first and
    [fSX] receives the value of that assignment. *)
Definition ctor_assign (o : t) : t :=
  let o := set_fSY (SkFloatToScalar lit_1_5f) o in
  set_fSX (fSY o) o.

Definition ctor_calls (o : t) : t :=
  ctor_setTranslate (ctor_setScale (ctor_reset o)).

Definition ctor_body (o : t) : t := ctor_assign (ctor_calls o).

Definition ctor (rawX rawY : SkScalar) : t :=
  ctor_body (at_entry rawX rawY).

Definition performTest (w : World t) : World t :=
  let m := SkMatrix_default in
  let m := fM0 (self w) in
  let m := preScale (fSX (self w)) (fSY (self w)) m in
  let m := fM1 (self w) in
  let m := preScale (fSX (self w)) (fSY (self w)) m in
  let m := fM2 (self w) in
  let m := preScale (fSX (self w)) (fSY (self w)) m in
  w.

Definition bench : MatrixBenchClass t :=
  Build_MatrixBenchClass t base performTest.
End WithLib.
End ScaleMatrixBench.

(** ** The 3x3 arrays of the concatenation benchmarks

    The three concat classes declare the same fields, [mya], [myb] and
    [myr], arrays of nine elements; [performTest] reaches them through the
    pointers [a], [b] and [r] and [muladdmul] writes through the pointer it
    is handed.  A pointer is the array it points into and an index. *)

Variant array_name := Mya | Myb | Myr.

#[global] Instance array_name_eq_dec : EqDecision array_name.
Proof. solve_decision. Defined.

Definition ptr : Type := array_name * fin 9.

(** [a[i]] as an lvalue, for a pointer [a] to the first element. *)
Definition elem (a : array_name) (i : fin 9) : ptr := (a, i).
Notation "a .[ i ]" := (elem a i%fin)
  (at level 1, left associativity, format "a .[ i ]").

Record ConcatFields (T : Type) := {
  base : MatrixBench;
  mya : vec T 9;
  myb : vec T 9;
  myr : vec T 9;
}.
Arguments Build_ConcatFields {T} _ _ _ _.
Arguments base {T} _.
Arguments mya {T} _.
Arguments myb {T} _.
Arguments myr {T} _.

Section Arrays.
Context {T : Type}.

Definition array_of (o : ConcatFields T) (a : array_name) : vec T 9 :=
  match a with Mya => mya o | Myb => myb o | Myr => myr o end.

Definition set_array (a : array_name) (v : vec T 9) (o : ConcatFields T)
  : ConcatFields T :=
  match a with
  | Mya => Build_ConcatFields (base o) v (myb o) (myr o)
  | Myb => Build_ConcatFields (base o) (mya o) v (myr o)
  | Myr => Build_ConcatFields (base o) (mya o) (myb o) v
  end.

(** [*p] read in state [w]. *)
Definition rd (w : World (ConcatFields T)) (p : ptr) : T :=
  array_of (self w) (fst p) !!! snd p.

(** [*p = v] *)
Definition store (p : ptr) (v : T) (w : World (ConcatFields T))
  : World (ConcatFields T) :=
  set_self (set_array (fst p) (vinsert (snd p) v (array_of (self w) (fst p)))
                      (self w)) w.
End Arrays.

(** [template <typename T> void init9(T array[9])]; [conv] is the implicit
    conversion from [SkScalar] to [T] at the assignment. *)
Definition init9 `{SkiaLib} {T : Type} (conv : SkScalar -> T)
    (array : vec T 9) : vec T 9 :=
  let rand := SkRandom_default in
  fst (foldl (fun '(array, rand) i =>
                let '(x, rand) := nextSScalar1 rand in
                (vinsert i (conv x) array, rand))
             (array, rand)
             [0; 1; 2; 3; 4; 5; 6; 7; 8]%fin).

(** The constructor shared in shape by the three concat classes: the three
    arrays, holding whatever the storage held, are each passed to [init9]. *)
Definition concat_ctor `{SkiaLib} {T : Type} (name : string)
    (conv : SkScalar -> T) (raw : array_name -> vec T 9) : ConcatFields T :=
  let o := Build_ConcatFields (MatrixBench_ctor name)
                              (raw Mya) (raw Myb) (raw Myr) in
  let o := set_array Mya (init9 conv (mya o)) o in
  let o := set_array Myb (init9 conv (myb o)) o in
  let o := set_array Myr (init9 conv (myr o)) o in
  o.

(** ** class FloatConcatMatrixBench *)

Module FloatConcatMatrixBench.
Section WithArith.
Context `{SkiaLib}.

Definition t : Type := ConcatFields float.

Definition ctor (raw : array_name -> vec float 9) : t :=
  concat_ctor "concat_floatfloat" SkScalarToFloat raw.

Definition muladdmul (a b c d : float) (result : ptr) (w : World t)
  : World t :=
  store result (fadd (fmul a b) (fmul c d)) w.

Definition performTest (w : World t) : World t :=
  let a := Mya in
  let b := Myb in
  let r := Myr in
  let w := muladdmul (rd w a.[0]) (rd w b.[0]) (rd w a.[1]) (rd w b.[3]) r.[0] w in
  let w := muladdmul (rd w a.[0]) (rd w b.[1]) (rd w a.[1]) (rd w b.[4]) r.[1] w in
  let w := muladdmul (rd w a.[0]) (rd w b.[2]) (rd w a.[1]) (rd w b.[5]) r.[2] w in
  let w := store r.[2] (fadd (rd w r.[2]) (rd w a.[2])) w in
  let w := muladdmul (rd w a.[3]) (rd w b.[0]) (rd w a.[4]) (rd w b.[3]) r.[3] w in
  let w := muladdmul (rd w a.[3]) (rd w b.[1]) (rd w a.[4]) (rd w b.[4]) r.[4] w in
  let w := muladdmul (rd w a.[3]) (rd w b.[2]) (rd w a.[4]) (rd w b.[5]) r.[5] w in
  let w := store r.[5] (fadd (rd w r.[5]) (rd w a.[5])) w in
  let w := store r.[7] lit_0f w in
  let w := store r.[6] (rd w r.[7]) w in
  let w := store r.[8] lit_1f w in
  w.

Definition bench : MatrixBenchClass t :=
  Build_MatrixBenchClass t base performTest.
End WithArith.
End FloatConcatMatrixBench.

(** [static inline float SkDoubleToFloat(double x)] *)
Definition SkDoubleToFloat `{Arith} (x : double) : float := double_to_float x.

(** ** class FloatDoubleConcatMatrixBench *)

Module FloatDoubleConcatMatrixBench.
Section WithArith.
Context `{SkiaLib}.

Definition t : Type := ConcatFields float.

Definition ctor (raw : array_name -> vec float 9) : t :=
  concat_ctor "concat_floatdouble" SkScalarToFloat raw.

(** In [(double)a * b] the cast makes the left operand a [double], and the
    usual arithmetic conversions then convert [b] as well. *)
Definition muladdmul (a b c d : float) (result : ptr) (w : World t)
  : World t :=
  store result
    (SkDoubleToFloat
       (dadd (dmul (float_to_double a) (float_to_double b))
             (dmul (float_to_double c) (float_to_double d)))) w.

Definition performTest (w : World t) : World t :=
  let a := Mya in
  let b := Myb in
  let r := Myr in
  let w := muladdmul (rd w a.[0]) (rd w b.[0]) (rd w a.[1]) (rd w b.[3]) r.[0] w in
  let w := muladdmul (rd w a.[0]) (rd w b.[1]) (rd w a.[1]) (rd w b.[4]) r.[1] w in
  let w := muladdmul (rd w a.[0]) (rd w b.[2]) (rd w a.[1]) (rd w b.[5]) r.[2] w in
  let w := store r.[2] (fadd (rd w r.[2]) (rd w a.[2])) w in
  let w := muladdmul (rd w a.[3]) (rd w b.[0]) (rd w a.[4]) (rd w b.[3]) r.[3] w in
  let w := muladdmul (rd w a.[3]) (rd w b.[1]) (rd w a.[4]) (rd w b.[4]) r.[4] w in
  let w := muladdmul (rd w a.[3]) (rd w b.[2]) (rd w a.[4]) (rd w b.[5]) r.[5] w in
  let w := store r.[5] (fadd (rd w r.[5]) (rd w a.[5])) w in
  let w := store r.[7] lit_0f w in
  let w := store r.[6] (rd w r.[7]) w in
  let w := store r.[8] lit_1f w in
  w.

Definition bench : MatrixBenchClass t :=
  Build_MatrixBenchClass t base performTest.
End WithArith.
End FloatDoubleConcatMatrixBench.

(** ** class DoubleConcatMatrixBench *)

Module DoubleConcatMatrixBench.
Section WithArith.
Context `{SkiaLib}.

Definition t : Type := ConcatFields double.

Definition ctor (raw : array_name -> vec double 9) : t :=
  concat_ctor "concat_double" SkScalarToDouble raw.

Definition muladdmul (a b c d : double) (result : ptr) (w : World t)
  : World t :=
  store result (dadd (dmul a b) (dmul c d)) w.

Definition performTest (w : World t) : World t :=
  let a := Mya in
  let b := Myb in
  let r := Myr in
  let w := muladdmul (rd w a.[0]) (rd w b.[0]) (rd w a.[1]) (rd w b.[3]) r.[0] w in
  let w := muladdmul (rd w a.[0]) (rd w b.[1]) (rd w a.[1]) (rd w b.[4]) r.[1] w in
  let w := muladdmul (rd w a.[0]) (rd w b.[2]) (rd w a.[1]) (rd w b.[5]) r.[2] w in
  let w := store r.[2] (dadd (rd w r.[2]) (rd w a.[2])) w in
  let w := muladdmul (rd w a.[3]) (rd w b.[0]) (rd w a.[4]) (rd w b.[3]) r.[3] w in
  let w := muladdmul (rd w a.[3]) (rd w b.[1]) (rd w a.[4]) (rd w b.[4]) r.[4] w in
  let w := muladdmul (rd w a.[3]) (rd w b.[2]) (rd w a.[4]) (rd w b.[5]) r.[5] w in
  let w := store r.[5] (dadd (rd w r.[5]) (rd w a.[5])) w in
  let w := store r.[7] lit_0 w in
  let w := store r.[6] (rd w r.[7]) w in
  let w := store r.[8] lit_1 w in
  w.

Definition bench : MatrixBenchClass t :=
  Build_MatrixBenchClass t base performTest.
End WithArith.
End DoubleConcatMatrixBench.

(** ** The registrations

    [BenchRegistry] is declared by the host framework; an object of that
    class records the factory it was constructed with.  A factory allocates
    and constructs a benchmark; what the fresh storage holds before the
    constructor runs is the record [Raw]. *)

Section Registry.
Context `{SkiaLib}.

Record Raw := {
  raw_fSX : SkScalar;
  raw_fSY : SkScalar;
  raw_floats : array_name -> vec float 9;
  raw_doubles : array_name -> vec double 9;
}.

(** A pointer to [SkBenchmark] points to an object of one of the five
    derived classes. *)
Variant SkBenchmark :=
  | IsEquals (o : EqualsMatrixBench.t)
  | IsScale (o : ScaleMatrixBench.t)
  | IsFloatConcat (o : FloatConcatMatrixBench.t)
  | IsFloatDoubleConcat (o : FloatDoubleConcatMatrixBench.t)
  | IsDoubleConcat (o : DoubleConcatMatrixBench.t).

Definition M0 (raw : Raw) : SkBenchmark :=
  IsEquals EqualsMatrixBench.ctor.
Definition M1 (raw : Raw) : SkBenchmark :=
  IsScale (ScaleMatrixBench.ctor (raw_fSX raw) (raw_fSY raw)).
Definition M2 (raw : Raw) : SkBenchmark :=
  IsFloatConcat (FloatConcatMatrixBench.ctor (raw_floats raw)).
Definition M3 (raw : Raw) : SkBenchmark :=
  IsFloatDoubleConcat (FloatDoubleConcatMatrixBench.ctor (raw_floats raw)).
Definition M4 (raw : Raw) : SkBenchmark :=
  IsDoubleConcat (DoubleConcatMatrixBench.ctor (raw_doubles raw)).

Record BenchRegistry := { fFact : Raw -> SkBenchmark }.

Definition gReg0 : BenchRegistry := {| fFact := M0 |}.
Definition gReg1 : BenchRegistry := {| fFact := M1 |}.
Definition gReg2 : BenchRegistry := {| fFact := M2 |}.
Definition gReg3 : BenchRegistry := {| fFact := M3 |}.
Definition gReg4 : BenchRegistry := {| fFact := M4 |}.

(** The registry objects the file defines, in order of definition. *)
Definition registrations : list BenchRegistry :=
  [gReg0; gReg1; gReg2; gReg3; gReg4].

(** Virtual dispatch of [onGetName]. *)
Definition getName (b : SkBenchmark) : string :=
  match b with
  | IsEquals o => @onGetName _ EqualsMatrixBench.bench o
  | IsScale o => @onGetName _ ScaleMatrixBench.bench o
  | IsFloatConcat o => @onGetName _ FloatConcatMatrixBench.bench o
  | IsFloatDoubleConcat o => @onGetName _ FloatDoubleConcatMatrixBench.bench o
  | IsDoubleConcat o => @onGetName _ DoubleConcatMatrixBench.bench o
  end.
End Registry.

(** The operations the harness is said to measure. *)
Variant precision := FloatOnly | FloatWithDoubleIntermediate | DoubleOnly.
Variant operation := EqualityComparison | Scaling | Concatenation (p : precision).

#[global] Instance precision_eq_dec : EqDecision precision.
Proof. solve_decision. Defined.
#[global] Instance operation_eq_dec : EqDecision operation.
Proof. solve_decision. Defined.

Definition all_operations : list operation :=
  [EqualityComparison; Scaling; Concatenation FloatOnly;
   Concatenation FloatWithDoubleIntermediate; Concatenation DoubleOnly].

(** The operation a benchmark object measures, by its class. *)
Definition measures `{SkiaLib} (b : SkBenchmark) : operation :=
  match b with
  | IsEquals _ => EqualityComparison
  | IsScale _ => Scaling
  | IsFloatConcat _ => Concatenation FloatOnly
  | IsFloatDoubleConcat _ => Concatenation FloatWithDoubleIntermediate
  | IsDoubleConcat _ => Concatenation DoubleOnly
  end.

(** ** Matrix product, as the glossary defines concatenation

    A 3x3 matrix is stored row-major in nine cells: entry (i, j) is cell
    [3 * i + j]. *)

Section MatrixProduct.
Context {R : Type} (add mul : R -> R -> R).

Definition cell (i j : fin 3) : fin 9 :=
  match i, j with
  | 0%fin, 0%fin => 0 | 0%fin, 1%fin => 1 | 0%fin, _ => 2
  | 1%fin, 0%fin => 3 | 1%fin, 1%fin => 4 | 1%fin, _ => 5
  | _, 0%fin => 6 | _, 1%fin => 7 | _, _ => 8
  end%fin.

Definition entry (m : vec R 9) (i j : fin 3) : R := m !!! cell i j.

(** Entry (i, j) of the product: the sum over k of a(i,k) * b(k,j). *)
Definition product_entry (a b : vec R 9) (i j : fin 3) : R :=
  add (add (mul (entry a i 0%fin) (entry b 0%fin j))
           (mul (entry a i 1%fin) (entry b 1%fin j)))
      (mul (entry a i 2%fin) (entry b 2%fin j)).

Definition matrix_product (a b : vec R 9) : vec R 9 :=
  [# product_entry a b 0 0; product_entry a b 0 1; product_entry a b 0 2;
     product_entry a b 1 0; product_entry a b 1 1; product_entry a b 1 2;
     product_entry a b 2 0; product_entry a b 2 1; product_entry a b 2 2 ]%fin.
End MatrixProduct.

(** ** The cells a concat call leaves in the result array

    Written with the multiply-add step [mam], the addition [add] and the two
    literals of the class left open, so that the same shape serves the three
    classes. *)

Definition concat_cells {T : Type} (mam : T -> T -> T -> T -> T)
    (add : T -> T -> T) (zero one : T) (a b : vec T 9) : vec T 9 :=
  [# mam (a !!! 0%fin) (b !!! 0%fin) (a !!! 1%fin) (b !!! 3%fin);
     mam (a !!! 0%fin) (b !!! 1%fin) (a !!! 1%fin) (b !!! 4%fin);
     add (mam (a !!! 0%fin) (b !!! 2%fin) (a !!! 1%fin) (b !!! 5%fin))
         (a !!! 2%fin);
     mam (a !!! 3%fin) (b !!! 0%fin) (a !!! 4%fin) (b !!! 3%fin);
     mam (a !!! 3%fin) (b !!! 1%fin) (a !!! 4%fin) (b !!! 4%fin);
     add (mam (a !!! 3%fin) (b !!! 2%fin) (a !!! 4%fin) (b !!! 5%fin))
         (a !!! 5%fin);
     zero; zero; one ].

(** The multiply-add step of each class, as a function of its operands. *)
Definition mam_float `{Arith} (a b c d : float) : float :=
  fadd (fmul a b) (fmul c d).
Definition mam_float_double `{Arith} (a b c d : float) : float :=
  double_to_float
    (dadd (dmul (float_to_double a) (float_to_double b))
          (dmul (float_to_double c) (float_to_double d))).
Definition mam_double `{Arith} (a b c d : double) : double :=
  dadd (dmul a b) (dmul c d).

(** Cell [i] of a nine-cell array. *)
Definition cell_at {T : Type} (v : vec T 9) (i : fin 9) : T := v !!! i.
Arguments cell_at {T} v i%_fin.
Notation "v @[ i ]" := (cell_at v i)
  (at level 1, left associativity, format "v @[ i ]").

(** The third row of a row-major 3x3 matrix is (0, 0, 1). *)
Definition affine_last_row (m : vec Qc 9) : Prop :=
  m !!! 6%fin = 0%Qc /\ m !!! 7%fin = 0%Qc /\ m !!! 8%fin = 1%Qc.

(** ** A reference implementation of the library interface

    Used to show that the assumptions made on the interface can be met and
    to run the benchmarks on concrete inputs. *)

Module Reference.

Local Open Scope Qc_scope.

(** Modelled from the spec: [SkMatrix] (declared in SkMatrix.h, which is
    not part of the file) is "a 3x3 matrix representing 2D
    scale/translate/rotate/perspective operations"; it is taken row-major
    over exact scalars, [reset] giving the identity transform. *)
Definition Matrix : Type := vec Qc 9.

Definition identity : Matrix := [# 1; 0; 0;  0; 1; 0;  0; 0; 1].
Definition scale_matrix (sx sy : Qc) : Matrix :=
  [# sx; 0; 0;  0; sy; 0;  0; 0; 1].
Definition translate_matrix (dx dy : Qc) : Matrix :=
  [# 1; 0; dx;  0; 1; dy;  0; 0; 1].

(** Modelled from the spec: "Concatenation: matrix multiplication
    combining two transforms into one"; [preScale] concatenates the
    matrix with a scale. *)
Definition pre_scale (sx sy : Qc) (m : Matrix) : Matrix :=
  matrix_product Qcplus Qcmult m (scale_matrix sx sy).

Definition equal (m m' : Matrix) : bool := bool_decide (m = m').

(** Modelled from the spec: the type of a matrix says which of the
    translate, scale, affine and perspective parts differ from the
    identity; the identity has type 0. *)
Definition is_id_translate (m : Matrix) : bool :=
  bool_decide (m !!! 2%fin = 0 /\ m !!! 5%fin = 0).
Definition is_id_scale (m : Matrix) : bool :=
  bool_decide (m !!! 0%fin = 1 /\ m !!! 4%fin = 1).
Definition is_id_affine (m : Matrix) : bool :=
  bool_decide (m !!! 1%fin = 0 /\ m !!! 3%fin = 0).
Definition is_id_perspective (m : Matrix) : bool :=
  bool_decide (m !!! 6%fin = 0 /\ m !!! 7%fin = 0 /\ m !!! 8%fin = 1).

Definition type_mask (m : Matrix) : Z :=
  ((if is_id_translate m then 0 else 1) +
   (if is_id_scale m then 0 else 2) +
   (if is_id_affine m then 0 else 4) +
   (if is_id_perspective m then 0 else 8))%Z.

(** Modelled from the spec: [SkRandom] (declared in SkRandom.h) is a
    pseudo-random generator; a linear congruential generator on 32 bits
    whose draws are signed 16.16 fractions, at least -1 and below 1. *)
Definition Random : Type := Z.

Definition next (seed : Random) : Qc * Random :=
  let seed' := ((seed * 1664525 + 1013904223) mod 2 ^ 32)%Z in
  (Q2Qc (Qmake (wrap_int seed' / 2 ^ 15) (2 ^ 16)), seed').

Definition lib : @SkiaLib exact_arith :=
  @Build_SkiaLib exact_arith
    Qc Matrix Random
    (fun x => x) (fun x => x) (fun x => x)
    (vreplicate 9 0)
    (fun _ => identity)
    (fun sx sy _ => scale_matrix sx sy)
    (fun dx dy _ => translate_matrix dx dy)
    pre_scale
    equal
    type_mask
    0%Z
    next.

End Reference.

(** ** Sample inputs *)

Module Sample.
Local Open Scope Qc_scope.

(** Two affine matrices over the rationals and a result array holding
    leftovers. *)
Definition of_int (z : Z) : Qc := Q2Qc (inject_Z z).

Definition a : vec Qc 9 :=
  vmap of_int [# 2; 3; 5;  7; 11; 13;  0; 0; 1]%Z.
Definition b : vec Qc 9 :=
  vmap of_int [# 1; 4; 9;  16; 25; 36;  0; 0; 1]%Z.
Definition r : vec Qc 9 := vreplicate 9 (Q2Qc (7 # 3)).

Definition world : World (ConcatFields Qc) :=
  mkWorld 0%Z (Build_ConcatFields (MatrixBench_ctor "sample") a b r).

(** binary32 operands on which the precision strategies disagree:
    1 + 2^-23, 1 + 2^-22, -1 and 1. *)
Definition x1 : IEEE.float32 := IEEE.of_Z32 (2 ^ 23 + 1)%Z (-23)%Z.
Definition x2 : IEEE.float32 := IEEE.of_Z32 (2 ^ 22 + 1)%Z (-22)%Z.
Definition m1 : IEEE.float32 := IEEE.of_Z32 (-1)%Z 0%Z.
Definition p1 : IEEE.float32 := IEEE.of_Z32 1%Z 0%Z.
Definition z0 : IEEE.float32 := IEEE.F32 (S754_zero false).
End Sample.

(** ** Notions used to state further properties *)

(** The generator a default-constructed [SkRandom] has become after [n]
    draws, and the nine scalars drawn first, in order. *)
Definition rand_after `{SkiaLib} (n : nat) : SkRandom :=
  Nat.iter n (fun rand => snd (nextSScalar1 rand)) SkRandom_default.

Definition nth_draw `{SkiaLib} (n : nat) : SkScalar :=
  fst (nextSScalar1 (rand_after n)).

Definition first_draws `{SkiaLib} : vec SkScalar 9 :=
  [# nth_draw 0; nth_draw 1; nth_draw 2; nth_draw 3; nth_draw 4;
     nth_draw 5; nth_draw 6; nth_draw 7; nth_draw 8 ].

(** The matrix with its third row replaced by (0, 0, 1). *)
Definition affine_part {T : Type} (zero one : T) (m : vec T 9) : vec T 9 :=
  vinsert 8%fin one (vinsert 7%fin zero (vinsert 6%fin zero m)).

(** The matrix with its third row replaced by three given cells. *)
Definition with_last_row {T : Type} (x y z : T) (m : vec T 9) : vec T 9 :=
  vinsert 8%fin z (vinsert 7%fin y (vinsert 6%fin x m)).

(** The state of a concat benchmark with the given arrays. *)
Definition concat_world {T : Type} (g : Z) (nm : MatrixBench)
    (a b r : vec T 9) : World (ConcatFields T) :=
  mkWorld g (Build_ConcatFields nm a b r).

(** What one call of a concat [performTest] computes over the rationals,
    as a function of the two input arrays (the result array starts out
    holding [a]; its contents do not matter). *)
Definition concat_exact (a b : vec Qc 9) : vec Qc 9 :=
  myr (self (@FloatConcatMatrixBench.performTest exact_arith
               (concat_world 0 (MatrixBench_ctor "") a b a))).

Definition is_nan (x : spec_float) : bool :=
  match x with S754_nan => true | _ => false end.

(** Zeros and finite non-zero numbers, as opposed to infinities and NaN. *)
Definition is_finite (x : spec_float) : bool :=
  match x with S754_zero _ | S754_finite _ _ _ => true | _ => false end.

(** A binary32 value: a datum of the format, not just any [spec_float]. *)
Definition valid32 (x : IEEE.float32) : bool :=
  valid_binary IEEE.prec32 IEEE.emax32 (IEEE.bits32 x).

(** ** Dyadic numbers and rounding to nearest even

    The value of a finite floating-point number is a dyadic number,
    [mant * 2^expo].  Products and sums of dyadic numbers are dyadic, and
    the rounding of a format is a function on them. *)

Record dyadic := Dy { mant : Z; expo : Z }.

Definition dy_value (x : dyadic) : Q :=
  (inject_Z (mant x) * Qpower 2 (expo x))%Q.

(** The exact product and the exact sum. *)
Definition dy_mul (x y : dyadic) : dyadic :=
  Dy (mant x * mant y) (expo x + expo y).

Definition dy_add (x y : dyadic) : dyadic :=
  let e := Z.min (expo x) (expo y) in
  Dy (mant x * 2 ^ (expo x - e) + mant y * 2 ^ (expo y - e)) e.

(** The same number written with an exponent lower by [k]. *)
Definition dy_shift (k : Z) (x : dyadic) : dyadic :=
  Dy (mant x * 2 ^ k) (expo x - k).

(** [M / 2^n] rounded to the nearest integer, a tie going to the even
    one. *)
Definition nearest_even (M n : Z) : Z :=
  let q := M / 2 ^ n in
  match 2 * (M mod 2 ^ n) ?= 2 ^ n with
  | Lt => q
  | Eq => if Z.even q then q else q + 1
  | Gt => q + 1
  end.

(** The number [M * 2^e] as a multiple of [2^E], to the nearest even. *)
Definition scaled (M e E : Z) : Z :=
  if E <=? e then M * 2 ^ (e - E) else nearest_even M (E - e).

(** Rounding to nearest even in the format of precision [prec] and
    exponent bound [emax]: the number is brought to the exponent the format
    gives its binade and its mantissa is rounded to an integer.  The result
    is written canonically: zero is [0 * 2^0], and a mantissa that the
    rounding carried to [2^prec] is written [2^(prec-1)] one exponent up. *)
Definition dy_round (prec emax : Z) (x : dyadic) : dyadic :=
  let M := Z.abs (mant x) in
  let E := fexp prec emax (Zdigits2 M + expo x) in
  let m := scaled M (expo x) E in
  if m =? 0 then Dy 0 0
  else if m =? 2 ^ prec then Dy (Z.sgn (mant x) * 2 ^ (prec - 1)) (E + 1)
  else Dy (Z.sgn (mant x) * m) E.

(** A rounded number is within the range of the format when its exponent
    does not exceed [emax - prec], that is when it is below [2^emax]. *)
Definition dy_fits (prec emax : Z) (x : dyadic) : bool :=
  expo x <=? emax - prec.

(** The dyadic number a finite floating-point datum denotes. *)
Definition dy_of (x : spec_float) : dyadic :=
  match x with
  | S754_finite s m e => Dy (cond_Zopp s (Z.pos m)) e
  | _ => Dy 0 0
  end.

Notation rn32 := (dy_round IEEE.prec32 IEEE.emax32).
Notation rn64 := (dy_round IEEE.prec64 IEEE.emax64).

(** A binary64 value. *)
Definition valid64 (x : IEEE.float64) : bool :=
  valid_binary IEEE.prec64 IEEE.emax64 (IEEE.bits64 x).

(** The floating-point datum of sign [s] that a rounded number is written
    as; the sign of the mantissa is not looked at. *)
Definition sf_of_dy (s : bool) (r : dyadic) : spec_float :=
  match mant r with
  | Z0 => S754_zero s
  | Z.pos p | Z.neg p => S754_finite s p (expo r)
  end.

(** The mantissa of a number brought down to the exponent [e0], and two
    ways of writing the same number. *)
Definition aligned (x : dyadic) (e0 : Z) : Z := mant x * 2 ^ (expo x - e0).

Definition dy_same (x y : dyadic) : Prop :=
  exists e0 : Z, e0 <= expo x /\ e0 <= expo y /\ aligned x e0 = aligned y e0.

(** What a finite binary32 datum can be, and what a product of two can. *)
Definition in_range32 (x : dyadic) : Prop :=
  Z.abs (mant x) < 2 ^ 24 /\ -149 <= expo x <= 104.

Definition in_product_range (x : dyadic) : Prop :=
  Z.abs (mant x) < 2 ^ 48 /\ -298 <= expo x <= 208.

(** The operands the statements about the machine arithmetic range over:
    valid data of the format that are finite (zeros included), and the
    numbers they denote. *)
Definition operand32 (x : IEEE.float32) : Prop :=
  valid32 x = true /\ is_finite (IEEE.bits32 x) = true.

Definition operand64 (x : IEEE.float64) : Prop :=
  valid64 x = true /\ is_finite (IEEE.bits64 x) = true.

Definition num32 (x : IEEE.float32) : dyadic := dy_of (IEEE.bits32 x).
Definition num64 (x : IEEE.float64) : dyadic := dy_of (IEEE.bits64 x).

Notation fits32 := (dy_fits IEEE.prec32 IEEE.emax32).
Notation fits64 := (dy_fits IEEE.prec64 IEEE.emax64).

(** * Properties *)

(** ** Machine integers *)

Lemma wrap_int_id z : INT_MIN <= z <= INT_MAX -> wrap_int z = z.
Proof.
  unfold wrap_int, INT_MIN, INT_MAX. intros Hz.
  rewrite Z.mod_small; lia.
Qed.

Lemma wrap_int_range z : INT_MIN <= wrap_int z <= INT_MAX.
Proof.
  unfold wrap_int, INT_MIN, INT_MAX.
  pose proof (Z.mod_pos_bound (z + 2 ^ 31) (2 ^ 32) ltac:(lia)). lia.
Qed.

Lemma wrap_int_overflow : wrap_int (INT_MAX + 1) = INT_MIN.
Proof. reflexivity. Qed.

(** Removes the wrap-arounds of the goal whose argument is in range. *)
Ltac unwrap_int :=
  repeat match goal with
         | |- context [wrap_int ?z] => rewrite (wrap_int_id z) by lia
         end.

(** ** The loop of [onDraw] *)

Section LoopFacts.
Context {S : Type} (body : S -> S).

Lemma for_loop_exit i s : N <= i -> for_loop body i s = s.
Proof.
  intros Hi. rewrite for_loop_equation_1.
  destruct (decide (i < N)); [lia | reflexivity].
Qed.

Lemma for_loop_step i s :
  0 <= i < N -> for_loop body i s = for_loop body (i + 1) (body s).
Proof.
  intros Hi. rewrite for_loop_equation_1.
  destruct (decide (i < N)); [cbn | lia].
  rewrite wrap_int_id; [reflexivity|].
  unfold INT_MIN, INT_MAX, N in *. lia.
Qed.

(** From counter value [i], the loop runs the body [N - i] times. *)
Lemma for_loop_iter (k : nat) : forall i s,
  0 <= i -> i + Z.of_nat k = N ->
  for_loop body i s = Nat.iter k body s.
Proof.
  induction k as [|k IH]; intros i s Hi Hk.
  - rewrite for_loop_exit by lia. reflexivity.
  - rewrite for_loop_step by lia.
    rewrite IH by lia.
    rewrite Nat.iter_succ_r. reflexivity.
Qed.

(** The instrumented loop tallies one call per iteration and otherwise
    runs as the plain one. *)
Lemma counting_iter (k : nat) : forall c s,
  Nat.iter k (counting body) (c, s) = ((k + c)%nat, Nat.iter k body s).
Proof.
  induction k as [|k IH]; intros c s; [reflexivity|].
  rewrite !Nat.iter_succ_r. unfold counting at 2. cbn [fst snd].
  rewrite IH. f_equal. lia.
Qed.
End LoopFacts.

(** C4. For every class derived from [MatrixBench], one call of [onDraw]
    runs that class's [performTest] exactly N = 100000 times: the state it
    returns is the 100000-fold iterate of [performTest], and the loop, run
    with a tally of the calls made, ends with the tally at 100000.  The loop
    terminates: [for_loop] is a total function, defined by well-founded
    recursion on [N - i]. *)
Theorem onDraw_runs_performTest_N_times :
  forall (Obj : Type) (B : MatrixBenchClass Obj) (w : World Obj),
    N = 100000 /\
    onDraw w = Nat.iter (Z.to_nat 100000) performTest w /\
    for_loop (counting performTest) 0 (0%nat, w)
      = (Z.to_nat 100000, onDraw w).
Proof.
  intros Obj B w.
  assert (Hk : 0 + Z.of_nat (Z.to_nat 100000) = N) by (unfold N; lia).
  split; [reflexivity|]. split.
  - unfold onDraw. apply for_loop_iter; [lia | exact Hk].
  - rewrite (for_loop_iter _ (Z.to_nat 100000)) by (lia || exact Hk).
    rewrite counting_iter. unfold onDraw.
    rewrite (for_loop_iter _ (Z.to_nat 100000)) by (lia || exact Hk).
    rewrite Nat.add_0_r. reflexivity.
Qed.

(** ** The guard and [EqualsMatrixBench] *)

Lemma always_do_false {Obj} (w : World Obj) : always_do false w = w.
Proof. reflexivity. Qed.

Lemma always_do_self {Obj} (pred : bool) (w : World Obj) :
  self (always_do pred w) = self w.
Proof. destruct pred; reflexivity. Qed.

Lemma always_do_true {Obj} (w : World Obj) :
  INT_MIN <= gMatrixBench_NonStaticGlobal w < INT_MAX ->
  gMatrixBench_NonStaticGlobal (always_do true w)
    = gMatrixBench_NonStaticGlobal w + 1.
Proof. intros Hg. cbn. apply wrap_int_id. lia. Qed.

(** How many of the three [getType] guards of
    [EqualsMatrixBench::performTest] fire: all three matrices were reset, so
    all three or none. *)
Definition type_guards_taken `{SkiaLib} : Z :=
  if int_to_bool (getType (reset SkMatrix_default)) then 3 else 0.

Lemma equals_performTest_counter `{SkiaLib} (w : World EqualsMatrixBench.t) :
  reset_matrices_equal ->
  INT_MIN <= gMatrixBench_NonStaticGlobal w ->
  gMatrixBench_NonStaticGlobal w + 3 + type_guards_taken <= INT_MAX ->
  gMatrixBench_NonStaticGlobal (EqualsMatrixBench.performTest w)
    = gMatrixBench_NonStaticGlobal w + 3 + type_guards_taken.
Proof.
  intros Heq Hlo Hhi. unfold EqualsMatrixBench.performTest, type_guards_taken in *.
  rewrite Heq. destruct w as [g o]. cbn [gMatrixBench_NonStaticGlobal] in *.
  destruct (int_to_bool (getType (reset SkMatrix_default)));
    cbn [always_do incr_global gMatrixBench_NonStaticGlobal self];
    unwrap_int; lia.
Qed.

Lemma equals_performTest_self `{SkiaLib} (w : World EqualsMatrixBench.t) :
  self (EqualsMatrixBench.performTest w) = self w.
Proof.
  unfold EqualsMatrixBench.performTest. rewrite !always_do_self. reflexivity.
Qed.

(** C5, as stated, fails when the counter is at the top of the range of
    [int]: the increment of [always_do(true)] at [INT_MAX] leaves [INT_MIN],
    not [INT_MAX + 1], and a call of [EqualsMatrixBench::performTest] that
    starts one below [INT_MAX] leaves the counter lower than it found it. *)
Lemma guard_overflows_at_INT_MAX :
  gMatrixBench_NonStaticGlobal (always_do true (mkWorld 2147483647 tt))
    = -2147483648 /\
  gMatrixBench_NonStaticGlobal (always_do true (mkWorld 2147483647 tt))
    <> 2147483647 + 1 /\
  Reference.lib.(mat_eq) (reset SkMatrix_default) (reset SkMatrix_default)
    = true /\
  gMatrixBench_NonStaticGlobal
    (@EqualsMatrixBench.performTest _ Reference.lib
       (mkWorld 2147483646 EqualsMatrixBench.ctor)) = -2147483647 /\
  ~ (2147483646 + 3 <=
     gMatrixBench_NonStaticGlobal
       (@EqualsMatrixBench.performTest _ Reference.lib
          (mkWorld 2147483646 EqualsMatrixBench.ctor))).
Proof. repeat split; vm_compute; congruence. Qed.

(** C5 (amended). [always_do(pred)] leaves the counter unchanged when
    [pred] is false and, when [pred] is true and the counter is below
    [INT_MAX], increments it by exactly 1.  Consequently, when reset
    matrices compare equal and the increments do not overflow, one call of
    [EqualsMatrixBench::performTest] increases the counter by 3 plus the
    number of [getType] guards that fire (0 or 3), hence by at least 3. *)
Theorem guard_increments_counter :
  forall (A : Arith) (L : SkiaLib),
    (forall (Obj : Type) (w : World Obj),
        gMatrixBench_NonStaticGlobal (always_do false w)
          = gMatrixBench_NonStaticGlobal w) /\
    (forall (Obj : Type) (w : World Obj),
        INT_MIN <= gMatrixBench_NonStaticGlobal w < INT_MAX ->
        gMatrixBench_NonStaticGlobal (always_do true w)
          = gMatrixBench_NonStaticGlobal w + 1) /\
    (reset_matrices_equal ->
     forall w : World EqualsMatrixBench.t,
       INT_MIN <= gMatrixBench_NonStaticGlobal w ->
       gMatrixBench_NonStaticGlobal w + 3 + type_guards_taken <= INT_MAX ->
       gMatrixBench_NonStaticGlobal (EqualsMatrixBench.performTest w)
         = gMatrixBench_NonStaticGlobal w + 3 + type_guards_taken /\
       gMatrixBench_NonStaticGlobal w + 3
         <= gMatrixBench_NonStaticGlobal (EqualsMatrixBench.performTest w)).
Proof.
  intros A L. split; [reflexivity|]. split.
  - intros Obj w Hg. apply always_do_true. exact Hg.
  - intros Heq w Hlo Hhi.
    rewrite equals_performTest_counter by assumption.
    split; [reflexivity|].
    unfold type_guards_taken.
    destruct (int_to_bool _); lia.
Qed.

Lemma reference_reset_matrices_equal : @reset_matrices_equal _ Reference.lib.
Proof. intros m m'. vm_compute. reflexivity. Qed.

Lemma guard_increments_counter_witness :
  gMatrixBench_NonStaticGlobal (always_do true (mkWorld 0 tt)) = 0 + 1 /\
  gMatrixBench_NonStaticGlobal
    (@EqualsMatrixBench.performTest _ Reference.lib
       (mkWorld 0 EqualsMatrixBench.ctor))
  = 0 + 3 + @type_guards_taken _ Reference.lib.
Proof.
  destruct (guard_increments_counter exact_arith Reference.lib)
    as (_ & Hinc & Hcall).
  split.
  - apply (Hinc unit (mkWorld 0 tt)). vm_compute. split; congruence.
  - refine (proj1 (Hcall reference_reset_matrices_equal
                     (mkWorld 0 EqualsMatrixBench.ctor) _ _)).
    + vm_compute. congruence.
    + vm_compute. congruence.
Defined.

(** ** Reads and writes through pointers *)

Section PointerFacts.
Context {T : Type}.
Implicit Types (w : World (ConcatFields T)) (p q : ptr) (v : T).

Lemma array_of_set_array_same a (x : vec T 9) (o : ConcatFields T) :
  array_of (set_array a x o) a = x.
Proof. destruct a; reflexivity. Qed.

Lemma array_of_set_array_other a a' (x : vec T 9) (o : ConcatFields T) :
  a <> a' -> array_of (set_array a x o) a' = array_of o a'.
Proof. destruct a, a'; congruence || reflexivity. Qed.

Lemma rd_store_same p v w : rd (store p v w) p = v.
Proof.
  unfold rd, store. cbn [self set_self].
  rewrite array_of_set_array_same. apply vlookup_insert.
Qed.

Lemma rd_store_other p q v w : p <> q -> rd (store p v w) q = rd w q.
Proof.
  destruct p as [a i], q as [a' j]. intros Hpq.
  unfold rd, store. cbn [self set_self fst snd].
  destruct (decide (a = a')) as [->|Ha].
  - rewrite array_of_set_array_same. apply vlookup_insert_ne. congruence.
  - rewrite array_of_set_array_other by exact Ha. reflexivity.
Qed.

(** A store changes one array of the object and nothing else. *)
Lemma store_frame p v w :
  gMatrixBench_NonStaticGlobal (store p v w) = gMatrixBench_NonStaticGlobal w /\
  base (self (store p v w)) = base (self w) /\
  forall a, a <> fst p ->
            array_of (self (store p v w)) a = array_of (self w) a.
Proof.
  destruct p as [a i]. unfold store. cbn [self set_self fst snd].
  split; [reflexivity|]. split; [destruct a; reflexivity|].
  intros a' Ha. apply array_of_set_array_other. congruence.
Qed.
End PointerFacts.

(** ** One call of a concat [performTest], in closed form

    Each class overwrites [myr] with [concat_cells] of its own multiply-add
    step and leaves the rest of the state as it was. *)

Ltac run_concat w :=
  destruct w as [g [nm a b r]]; cbn [self mya myb myr base] in *;
  inv_vec a; inv_vec b; inv_vec r; intros; vm_compute; reflexivity.

Lemma float_performTest_closed `{Arith} (w : World FloatConcatMatrixBench.t) :
  FloatConcatMatrixBench.performTest w
  = set_self (set_array Myr
                (concat_cells mam_float fadd lit_0f lit_1f
                   (mya (self w)) (myb (self w)))
                (self w)) w.
Proof. run_concat w. Qed.

Lemma float_double_performTest_closed `{Arith}
    (w : World FloatDoubleConcatMatrixBench.t) :
  FloatDoubleConcatMatrixBench.performTest w
  = set_self (set_array Myr
                (concat_cells mam_float_double fadd lit_0f lit_1f
                   (mya (self w)) (myb (self w)))
                (self w)) w.
Proof. run_concat w. Qed.

Lemma double_performTest_closed `{Arith} (w : World DoubleConcatMatrixBench.t) :
  DoubleConcatMatrixBench.performTest w
  = set_self (set_array Myr
                (concat_cells mam_double dadd lit_0 lit_1
                   (mya (self w)) (myb (self w)))
                (self w)) w.
Proof. run_concat w. Qed.

(** ** The concat benchmarks over exact arithmetic *)

(** C1. Over exact (rational) arithmetic, for input arrays [a] and [b] whose
    third rows are (0, 0, 1), one call of [performTest] of each of the three
    concat classes leaves in [myr] the cells
    r0 = a0*b0 + a1*b3, r1 = a0*b1 + a1*b4, r2 = a0*b2 + a1*b5 + a2,
    r3 = a3*b0 + a4*b3, r4 = a3*b1 + a4*b4, r5 = a3*b2 + a4*b5 + a5,
    r6 = r7 = 0, r8 = 1, and these cells are the row-major matrix product
    a x b. *)
Theorem concat_computes_matrix_product :
  forall (g : Z) (nm : MatrixBench) (a b r : vec Qc 9),
    affine_last_row a -> affine_last_row b ->
    let w : World (ConcatFields Qc) := mkWorld g (Build_ConcatFields nm a b r) in
    let cells : vec Qc 9 :=
      [# a@[0] * b@[0] + a@[1] * b@[3];
         a@[0] * b@[1] + a@[1] * b@[4];
         a@[0] * b@[2] + a@[1] * b@[5] + a@[2];
         a@[3] * b@[0] + a@[4] * b@[3];
         a@[3] * b@[1] + a@[4] * b@[4];
         a@[3] * b@[2] + a@[4] * b@[5] + a@[5];
         0; 0; 1 ]%Qc in
    myr (self (@FloatConcatMatrixBench.performTest exact_arith w)) = cells /\
    myr (self (@FloatDoubleConcatMatrixBench.performTest exact_arith w)) = cells /\
    myr (self (@DoubleConcatMatrixBench.performTest exact_arith w)) = cells /\
    cells = matrix_product Qcplus Qcmult a b.
Proof.
  intros g nm a b r Ha Hb w cells.
  rewrite (@float_performTest_closed exact_arith),
          (@float_double_performTest_closed exact_arith),
          (@double_performTest_closed exact_arith).
  repeat split; try reflexivity.
  subst w cells. unfold affine_last_row, cell_at in *.
  inv_vec a; intros a0 a1 a2 a3 a4 a5 a6 a7 a8 (Ha6 & Ha7 & Ha8).
  inv_vec b; intros b0 b1 b2 b3 b4 b5 b6 b7 b8 (Hb6 & Hb7 & Hb8).
  cbn in Ha6, Ha7, Ha8, Hb6, Hb7, Hb8. subst.
  unfold matrix_product, product_entry, entry. cbn [cell].
  cbn -[Qcplus Qcmult].
  repeat (f_equal; try ring).
Qed.

Lemma concat_computes_matrix_product_witness :
  affine_last_row Sample.a /\ affine_last_row Sample.b /\
  myr (self (@FloatConcatMatrixBench.performTest exact_arith Sample.world))
    = matrix_product Qcplus Qcmult Sample.a Sample.b.
Proof.
  assert (Ha : affine_last_row Sample.a) by (repeat split).
  assert (Hb : affine_last_row Sample.b) by (repeat split).
  split; [exact Ha|]. split; [exact Hb|].
  destruct (concat_computes_matrix_product 0 (MatrixBench_ctor "sample")
              Sample.a Sample.b Sample.r Ha Hb) as (Hf & _ & _ & Hprod).
  exact (eq_trans Hf Hprod).
Defined.

(** C3. Over exact (rational) arithmetic the three [performTest] bodies
    compute the same function of the inputs: started on the same [a] and
    [b], whatever each finds in its result array, the three leave the same
    nine cells in [myr].  The formula is shared; the machine arithmetic is
    what tells them apart, as the binary32 operands of [Sample] show for the
    float-only and the double-intermediate step. *)
Theorem concat_variants_agree_when_exact :
  (forall (g1 g2 g3 : Z) (n1 n2 n3 : MatrixBench) (a b r1 r2 r3 : vec Qc 9),
      let w1 := mkWorld g1 (Build_ConcatFields n1 a b r1) in
      let w2 := mkWorld g2 (Build_ConcatFields n2 a b r2) in
      let w3 := mkWorld g3 (Build_ConcatFields n3 a b r3) in
      myr (self (@FloatConcatMatrixBench.performTest exact_arith w1))
        = myr (self (@FloatDoubleConcatMatrixBench.performTest exact_arith w2)) /\
      myr (self (@FloatDoubleConcatMatrixBench.performTest exact_arith w2))
        = myr (self (@DoubleConcatMatrixBench.performTest exact_arith w3))) /\
  @mam_float exact_arith = @mam_float_double exact_arith /\
  @mam_float exact_arith = @mam_double exact_arith /\
  @mam_float ieee_arith Sample.x1 Sample.x2 Sample.m1 Sample.p1
    <> @mam_float_double ieee_arith Sample.x1 Sample.x2 Sample.m1 Sample.p1.
Proof.
  split; [|split; [reflexivity|split; [reflexivity|]]].
  - intros. subst w1 w2 w3.
    rewrite (@float_performTest_closed exact_arith),
            (@float_double_performTest_closed exact_arith),
            (@double_performTest_closed exact_arith).
    split; reflexivity.
  - vm_compute. congruence.
Qed.

(** ** What a concat call leaves, whatever the arithmetic *)

(** C9. Whatever the input arrays hold, also when their third rows are not
    (0, 0, 1), every call of [performTest] of each of the three concat
    classes leaves the last row of the result array at (0, 0, 1): cells 6
    and 7 hold the literal zero and cell 8 the literal one of the element
    type. *)
Theorem concat_result_last_row :
  forall (A : Arith)
         (wf : World FloatConcatMatrixBench.t)
         (wfd : World FloatDoubleConcatMatrixBench.t)
         (wd : World DoubleConcatMatrixBench.t),
    let rf := myr (self (FloatConcatMatrixBench.performTest wf)) in
    let rfd := myr (self (FloatDoubleConcatMatrixBench.performTest wfd)) in
    let rdd := myr (self (DoubleConcatMatrixBench.performTest wd)) in
    (rf@[6] = lit_0f /\ rf@[7] = lit_0f /\ rf@[8] = lit_1f) /\
    (rfd@[6] = lit_0f /\ rfd@[7] = lit_0f /\ rfd@[8] = lit_1f) /\
    (rdd@[6] = lit_0 /\ rdd@[7] = lit_0 /\ rdd@[8] = lit_1).
Proof.
  intros A wf wfd wd rf rfd rdd. subst rf rfd rdd.
  rewrite float_performTest_closed, float_double_performTest_closed,
          double_performTest_closed.
  repeat split.
Qed.

(** C10. A call of [performTest] of each of the three concat classes leaves
    the input arrays [mya] and [myb] as they were, and with them the
    inherited sub-object and the global counter: the result array [myr] is
    the only thing written. *)
Theorem concat_writes_only_result :
  forall (A : Arith)
         (wf : World FloatConcatMatrixBench.t)
         (wfd : World FloatDoubleConcatMatrixBench.t)
         (wd : World DoubleConcatMatrixBench.t),
    (mya (self (FloatConcatMatrixBench.performTest wf)) = mya (self wf) /\
     myb (self (FloatConcatMatrixBench.performTest wf)) = myb (self wf) /\
     base (self (FloatConcatMatrixBench.performTest wf)) = base (self wf) /\
     gMatrixBench_NonStaticGlobal (FloatConcatMatrixBench.performTest wf)
       = gMatrixBench_NonStaticGlobal wf) /\
    (mya (self (FloatDoubleConcatMatrixBench.performTest wfd)) = mya (self wfd) /\
     myb (self (FloatDoubleConcatMatrixBench.performTest wfd)) = myb (self wfd) /\
     base (self (FloatDoubleConcatMatrixBench.performTest wfd)) = base (self wfd) /\
     gMatrixBench_NonStaticGlobal (FloatDoubleConcatMatrixBench.performTest wfd)
       = gMatrixBench_NonStaticGlobal wfd) /\
    (mya (self (DoubleConcatMatrixBench.performTest wd)) = mya (self wd) /\
     myb (self (DoubleConcatMatrixBench.performTest wd)) = myb (self wd) /\
     base (self (DoubleConcatMatrixBench.performTest wd)) = base (self wd) /\
     gMatrixBench_NonStaticGlobal (DoubleConcatMatrixBench.performTest wd)
       = gMatrixBench_NonStaticGlobal wd).
Proof.
  intros A wf wfd wd.
  rewrite float_performTest_closed, float_double_performTest_closed,
          double_performTest_closed.
  repeat split.
Qed.

(** ** The multiply-add step of the three classes *)

Lemma float_muladdmul_stores `{Arith} a b c d p (w : World FloatConcatMatrixBench.t) :
  rd (FloatConcatMatrixBench.muladdmul a b c d p w) p = mam_float a b c d.
Proof. apply rd_store_same. Qed.

Lemma float_double_muladdmul_stores `{Arith} a b c d p
    (w : World FloatDoubleConcatMatrixBench.t) :
  rd (FloatDoubleConcatMatrixBench.muladdmul a b c d p w) p
  = mam_float_double a b c d.
Proof. apply rd_store_same. Qed.

Lemma double_muladdmul_stores `{Arith} a b c d p
    (w : World DoubleConcatMatrixBench.t) :
  rd (DoubleConcatMatrixBench.muladdmul a b c d p w) p = mam_double a b c d.
Proof. apply rd_store_same. Qed.

(** The binary32 and binary64 literals denote the numbers they are written
    as, and widening the sample operands does not change their value. *)
Lemma ieee_literal_values :
  (IEEE.SF2Q (IEEE.bits32 (@lit_1f ieee_arith)) == 1)%Q /\
  (IEEE.SF2Q (IEEE.bits32 (@lit_1_5f ieee_arith)) == 3 # 2)%Q /\
  (IEEE.SF2Q (IEEE.bits64 (@lit_1 ieee_arith)) == 1)%Q /\
  (IEEE.SF2Q (IEEE.bits64 (IEEE.widen Sample.x1))
     == IEEE.SF2Q (IEEE.bits32 Sample.x1))%Q /\
  (IEEE.SF2Q (IEEE.bits64 (IEEE.widen Sample.x2))
     == IEEE.SF2Q (IEEE.bits32 Sample.x2))%Q.
Proof. repeat split; vm_compute; reflexivity. Qed.

(** The operations each [muladdmul] applies, and their order, whatever the
    operands: two binary32 products and their binary32 sum; the operands
    widened, two binary64 products, their binary64 sum, and the narrowing
    of [SkDoubleToFloat]; two binary64 products and their binary64 sum. *)
Lemma muladdmul_compositions :
  (forall (a b c d : IEEE.float32) (p : ptr)
          (w : World (@FloatConcatMatrixBench.t ieee_arith)),
      rd (@FloatConcatMatrixBench.muladdmul ieee_arith a b c d p w) p
      = IEEE.add32 (IEEE.mul32 a b) (IEEE.mul32 c d)) /\
  (forall (a b c d : IEEE.float32) (p : ptr)
          (w : World (@FloatDoubleConcatMatrixBench.t ieee_arith)),
      rd (@FloatDoubleConcatMatrixBench.muladdmul ieee_arith a b c d p w) p
      = @SkDoubleToFloat ieee_arith
          (IEEE.add64 (IEEE.mul64 (IEEE.widen a) (IEEE.widen b))
                      (IEEE.mul64 (IEEE.widen c) (IEEE.widen d)))) /\
  (forall x : IEEE.float64,
      @SkDoubleToFloat ieee_arith x = IEEE.narrow x) /\
  (forall (a b c d : IEEE.float64) (p : ptr)
          (w : World (@DoubleConcatMatrixBench.t ieee_arith)),
      rd (@DoubleConcatMatrixBench.muladdmul ieee_arith a b c d p w) p
      = IEEE.add64 (IEEE.mul64 a b) (IEEE.mul64 c d)).
Proof.
  split; [|split; [|split]].
  - intros. apply (@float_muladdmul_stores ieee_arith).
  - intros. apply (@float_double_muladdmul_stores ieee_arith).
  - reflexivity.
  - intros. apply (@double_muladdmul_stores ieee_arith).
Qed.

(** ** The registrations *)

(** C7. The file defines exactly five registry objects.  Their factories
    build, in order, an [EqualsMatrixBench], a [ScaleMatrixBench], a
    [FloatConcatMatrixBench], a [FloatDoubleConcatMatrixBench] and a
    [DoubleConcatMatrixBench]: one benchmark for each operation the harness
    is said to measure, none twice, under five different names. *)
Theorem five_benchmarks_registered :
  forall (A : Arith) (L : SkiaLib) (raw : Raw),
    length registrations = 5%nat /\
    map (fun reg => fFact reg raw) registrations
      = [IsEquals EqualsMatrixBench.ctor;
         IsScale (ScaleMatrixBench.ctor (raw_fSX raw) (raw_fSY raw));
         IsFloatConcat (FloatConcatMatrixBench.ctor (raw_floats raw));
         IsFloatDoubleConcat (FloatDoubleConcatMatrixBench.ctor (raw_floats raw));
         IsDoubleConcat (DoubleConcatMatrixBench.ctor (raw_doubles raw))] /\
    map (fun reg => measures (fFact reg raw)) registrations = all_operations /\
    NoDup all_operations /\
    (forall op : operation, op ∈ all_operations) /\
    map (fun reg => getName (fFact reg raw)) registrations
      = ["matrix_equals"; "matrix_scale"; "matrix_concat_floatfloat";
         "matrix_concat_floatdouble"; "matrix_concat_double"]%string.
Proof.
  intros A L raw. repeat split.
  - apply (bool_decide_unpack _). vm_compute. exact I.
  - intros [| |[]]; unfold all_operations; repeat constructor.
Qed.

(** ** The constructor of [ScaleMatrixBench] *)

Section ScaleCtorFacts.
Context `{SkiaLib}.
Import ScaleMatrixBench.

(** The three calls leave the two scalars alone. *)
Lemma ctor_calls_scalars (o : t) :
  fSX (ctor_calls o) = fSX o /\ fSY (ctor_calls o) = fSY o.
Proof. split; reflexivity. Qed.

(** The assignment leaves the three matrices alone. *)
Lemma ctor_assign_matrices (o : t) :
  fM0 (ctor_assign o) = fM0 o /\
  fM1 (ctor_assign o) = fM1 o /\
  fM2 (ctor_assign o) = fM2 o.
Proof. repeat split. Qed.
End ScaleCtorFacts.

(** C8. In the constructor of [ScaleMatrixBench] the calls
    [fM1.setScale(fSX, fSY)] and [fM2.setTranslate(fSX, fSY)] run before the
    assignment [fSX = fSY = 1.5f]: whatever the two fields hold when the
    body is entered ([rawX], [rawY]) is what both calls receive, the fields
    still hold it once the calls have returned, and only the assignment that
    follows makes them 1.5, leaving the matrices as the calls built them. *)
Theorem scale_ctor_reads_scalars_before_assignment :
  forall (A : Arith) (L : SkiaLib) (rawX rawY : SkScalar),
    let entered := ScaleMatrixBench.at_entry rawX rawY in
    let called := ScaleMatrixBench.ctor_calls entered in
    let built := ScaleMatrixBench.ctor rawX rawY in
    (ScaleMatrixBench.fSX entered = rawX /\
     ScaleMatrixBench.fSY entered = rawY) /\
    (ScaleMatrixBench.fM1 called = setScale rawX rawY SkMatrix_default /\
     ScaleMatrixBench.fM2 called = setTranslate rawX rawY SkMatrix_default) /\
    (ScaleMatrixBench.fSX called = rawX /\
     ScaleMatrixBench.fSY called = rawY) /\
    built = ScaleMatrixBench.ctor_assign called /\
    (ScaleMatrixBench.fSX built = SkFloatToScalar lit_1_5f /\
     ScaleMatrixBench.fSY built = SkFloatToScalar lit_1_5f) /\
    (ScaleMatrixBench.fM1 built = setScale rawX rawY SkMatrix_default /\
     ScaleMatrixBench.fM2 built = setTranslate rawX rawY SkMatrix_default).
Proof.
  intros A L rawX rawY entered called built.
  pose proof (ctor_calls_scalars entered) as Hs.
  pose proof (ctor_assign_matrices called) as Hm.
  subst built called entered. repeat split.
Qed.

(** On the reference library, with 7 and 9 left in the storage: the
    constructed [fM1] scales by 7 and 9 and [fM2] translates by 7 and 9,
    while the constructed [fSX] and [fSY] are 3/2. *)
Example scale_ctor_on_leftovers :
  let built := @ScaleMatrixBench.ctor _ Reference.lib
                 (Sample.of_int 7) (Sample.of_int 9) in
  ScaleMatrixBench.fM1 built
    = Reference.scale_matrix (Sample.of_int 7) (Sample.of_int 9) /\
  ScaleMatrixBench.fM2 built
    = Reference.translate_matrix (Sample.of_int 7) (Sample.of_int 9) /\
  ScaleMatrixBench.fSX built = Q2Qc (3 # 2) /\
  ScaleMatrixBench.fSY built = Q2Qc (3 # 2) /\
  ScaleMatrixBench.fM1 built
    <> Reference.scale_matrix (Q2Qc (3 # 2)) (Q2Qc (3 # 2)).
Proof.
  repeat split. intros Heq.
  apply (f_equal (fun m : vec Qc 9 => this (m@[0]))) in Heq.
  vm_compute in Heq. discriminate Heq.
Qed.

(** ** State that outlives a call *)

(** C6, as stated, fails.  A call of [EqualsMatrixBench::performTest] that
    finds the global counter at 0 leaves it at 3; the counter outlives the
    call and the next call, finding 3, leaves 6.  A call of
    [FloatConcatMatrixBench::performTest] replaces what the result array
    held, and the new contents outlive the call as well. *)
Lemma performTest_leaves_state_behind :
  let w0 := mkWorld 0 EqualsMatrixBench.ctor in
  let w1 := @EqualsMatrixBench.performTest _ Reference.lib w0 in
  let w2 := @EqualsMatrixBench.performTest _ Reference.lib w1 in
  gMatrixBench_NonStaticGlobal w0 = 0 /\
  gMatrixBench_NonStaticGlobal w1 = 3 /\
  gMatrixBench_NonStaticGlobal w2 = 6 /\
  w1 <> w0 /\
  w2 <> w1 /\
  @FloatConcatMatrixBench.performTest exact_arith Sample.world
    <> Sample.world.
Proof.
  cbv zeta. repeat split; try (intros Heq).
  - apply (f_equal gMatrixBench_NonStaticGlobal) in Heq.
    vm_compute in Heq. discriminate Heq.
  - apply (f_equal gMatrixBench_NonStaticGlobal) in Heq.
    vm_compute in Heq. discriminate Heq.
  - apply (f_equal (fun w : World (ConcatFields Qc) =>
                      this ((myr (self w))@[8]))) in Heq.
    vm_compute in Heq. discriminate Heq.
Qed.

Lemma scale_performTest_id `{SkiaLib} (w : World ScaleMatrixBench.t) :
  ScaleMatrixBench.performTest w = w.
Proof. reflexivity. Qed.

(** C6 (amended).  The state a call of [performTest] leaves modified is
    confined to the global counter and the result array:
    [ScaleMatrixBench::performTest] leaves the whole state as it found it;
    [EqualsMatrixBench::performTest] leaves its object as it found it (the
    global counter is what it changes); each concat [performTest] changes
    only [myr], and what it leaves does not depend on what [myr] held, so
    that a later call on the same object cannot tell whether an earlier one
    took place: it leaves the state the earlier call left. *)
Theorem performTest_persistent_state :
  forall (A : Arith) (L : SkiaLib),
    (forall w : World ScaleMatrixBench.t,
        ScaleMatrixBench.performTest w = w) /\
    (forall w : World EqualsMatrixBench.t,
        self (EqualsMatrixBench.performTest w) = self w) /\
    (forall (w : World FloatConcatMatrixBench.t) (r' : vec float 9),
        let w' := set_self (set_array Myr r' (self w)) w in
        FloatConcatMatrixBench.performTest w
          = set_self (set_array Myr
                        (myr (self (FloatConcatMatrixBench.performTest w)))
                        (self w)) w /\
        FloatConcatMatrixBench.performTest w'
          = FloatConcatMatrixBench.performTest w /\
        FloatConcatMatrixBench.performTest
          (FloatConcatMatrixBench.performTest w)
          = FloatConcatMatrixBench.performTest w) /\
    (forall (w : World FloatDoubleConcatMatrixBench.t) (r' : vec float 9),
        let w' := set_self (set_array Myr r' (self w)) w in
        FloatDoubleConcatMatrixBench.performTest w
          = set_self (set_array Myr
                        (myr (self (FloatDoubleConcatMatrixBench.performTest w)))
                        (self w)) w /\
        FloatDoubleConcatMatrixBench.performTest w'
          = FloatDoubleConcatMatrixBench.performTest w /\
        FloatDoubleConcatMatrixBench.performTest
          (FloatDoubleConcatMatrixBench.performTest w)
          = FloatDoubleConcatMatrixBench.performTest w) /\
    (forall (w : World DoubleConcatMatrixBench.t) (r' : vec double 9),
        let w' := set_self (set_array Myr r' (self w)) w in
        DoubleConcatMatrixBench.performTest w
          = set_self (set_array Myr
                        (myr (self (DoubleConcatMatrixBench.performTest w)))
                        (self w)) w /\
        DoubleConcatMatrixBench.performTest w'
          = DoubleConcatMatrixBench.performTest w /\
        DoubleConcatMatrixBench.performTest
          (DoubleConcatMatrixBench.performTest w)
          = DoubleConcatMatrixBench.performTest w).
Proof.
  intros A L.
  split; [exact scale_performTest_id|].
  split; [exact equals_performTest_self|].
  split; [|split]; intros w r' w'; subst w';
    rewrite ?float_performTest_closed, ?float_double_performTest_closed,
            ?double_performTest_closed;
    destruct w as [g [nm a b r]]; repeat split.
Qed.

(** * Further properties *)

(** ** [init9] and the constructors of the concat classes *)

Section Init9Facts.
Context `{SkiaLib}.

(** [init9] leaves in cell [i] the [i]-th scalar drawn from a generator it
    default-constructs itself, converted to the element type; nothing of
    what the array held before survives. *)
Lemma init9_closed {T : Type} (conv : SkScalar -> T) (array : vec T 9) :
  init9 conv array = vmap conv first_draws.
Proof.
  inv_vec array; intros c0 c1 c2 c3 c4 c5 c6 c7 c8.
  unfold init9, first_draws, nth_draw, rand_after.
  cbn [foldl Nat.iter nat_rect].
  destruct (nextSScalar1 SkRandom_default) as [x0 r1]; cbn [fst snd].
  destruct (nextSScalar1 r1) as [x1 r2]; cbn [fst snd].
  destruct (nextSScalar1 r2) as [x2 r3]; cbn [fst snd].
  destruct (nextSScalar1 r3) as [x3 r4]; cbn [fst snd].
  destruct (nextSScalar1 r4) as [x4 r5]; cbn [fst snd].
  destruct (nextSScalar1 r5) as [x5 r6]; cbn [fst snd].
  destruct (nextSScalar1 r6) as [x6 r7]; cbn [fst snd].
  destruct (nextSScalar1 r7) as [x7 r8]; cbn [fst snd].
  destruct (nextSScalar1 r8) as [x8 r9]; cbn [fst snd].
  reflexivity.
Qed.

Lemma concat_ctor_closed {T : Type} (name : string) (conv : SkScalar -> T)
    (raw : array_name -> vec T 9) :
  concat_ctor name conv raw
  = Build_ConcatFields (MatrixBench_ctor name)
      (vmap conv first_draws) (vmap conv first_draws) (vmap conv first_draws).
Proof. unfold concat_ctor. cbn. rewrite !init9_closed. reflexivity. Qed.
End Init9Facts.

(** X1. [init9] overwrites all nine cells: cell [i] receives the [i]-th
    draw of a freshly default-constructed generator, converted, and the
    result does not depend on what the array held. *)
Theorem init9_fills_with_draws :
  forall (A : Arith) (L : SkiaLib) (T : Type) (conv : SkScalar -> T)
         (array array' : vec T 9) (i : fin 9),
    init9 conv array !!! i = conv (nth_draw (fin_to_nat i)) /\
    init9 conv array = init9 conv array'.
Proof.
  intros A L T conv array array' i. rewrite !init9_closed. split.
  - rewrite vlookup_map. f_equal.
    inv_fin i; [reflexivity|]. intros i.
    repeat (inv_fin i; [reflexivity|]; intros i). inv_fin i.
  - reflexivity.
Qed.

(** X2. A constructed concat benchmark holds the same nine values in all
    three of its arrays, whatever its storage held: each [init9] call draws
    from its own default-constructed generator.  So every [performTest]
    call multiplies a matrix by itself. *)
Theorem concat_ctor_arrays_coincide :
  forall (A : Arith) (L : SkiaLib)
         (rawf rawf' : array_name -> vec float 9)
         (rawd rawd' : array_name -> vec double 9),
    let f := FloatConcatMatrixBench.ctor rawf in
    let fd := FloatDoubleConcatMatrixBench.ctor rawf in
    let d := DoubleConcatMatrixBench.ctor rawd in
    (mya f = myb f /\ myb f = myr f) /\
    (mya fd = myb fd /\ myb fd = myr fd) /\
    (mya d = myb d /\ myb d = myr d) /\
    f = FloatConcatMatrixBench.ctor rawf' /\
    fd = FloatDoubleConcatMatrixBench.ctor rawf' /\
    d = DoubleConcatMatrixBench.ctor rawd'.
Proof.
  intros A L rawf rawf' rawd rawd' f fd d. subst f fd d.
  unfold FloatConcatMatrixBench.ctor, FloatDoubleConcatMatrixBench.ctor,
         DoubleConcatMatrixBench.ctor.
  rewrite !concat_ctor_closed. repeat split.
Qed.

(** X3. The three concat benchmarks are constructed on the same random
    scalars: the float-only and the double-intermediate benchmark hold
    equal arrays, and the double benchmark holds, cell by cell, the
    conversion to [double] of the scalar the other two hold converted to
    [float]. *)
Theorem concat_benchmarks_share_inputs :
  forall (A : Arith) (L : SkiaLib)
         (rawf rawf' : array_name -> vec float 9)
         (rawd : array_name -> vec double 9) (arr : array_name) (i : fin 9),
    array_of (FloatConcatMatrixBench.ctor rawf) arr
      = array_of (FloatDoubleConcatMatrixBench.ctor rawf') arr /\
    array_of (FloatConcatMatrixBench.ctor rawf) arr !!! i
      = SkScalarToFloat (first_draws !!! i) /\
    array_of (DoubleConcatMatrixBench.ctor rawd) arr !!! i
      = SkScalarToDouble (first_draws !!! i).
Proof.
  intros A L rawf rawf' rawd arr i.
  unfold FloatConcatMatrixBench.ctor, FloatDoubleConcatMatrixBench.ctor,
         DoubleConcatMatrixBench.ctor.
  rewrite !concat_ctor_closed.
  destruct arr; cbn [array_of mya myb myr]; rewrite !vlookup_map;
    repeat split.
Qed.

(** ** The counter over whole runs *)

Lemma wrap_int_add_l x y : wrap_int (wrap_int x + y) = wrap_int (x + y).
Proof.
  unfold wrap_int.
  replace ((x + 2 ^ 31) mod 2 ^ 32 - 2 ^ 31 + y + 2 ^ 31)
    with ((x + 2 ^ 31) mod 2 ^ 32 + y) by lia.
  rewrite Zplus_mod_idemp_l. do 2 f_equal. lia.
Qed.

Lemma iter_idempotent {S : Type} (f : S -> S) :
  (forall s, f (f s) = f s) ->
  forall (n : nat) (s : S), Nat.iter (Datatypes.S n) f s = f s.
Proof.
  intros Hf n s. induction n as [|n IH]; [reflexivity|].
  change (Nat.iter (Datatypes.S (Datatypes.S n)) f s)
    with (f (Nat.iter (Datatypes.S n) f s)).
  rewrite IH. apply Hf.
Qed.

Lemma onDraw_as_iter `{B : MatrixBenchClass Obj} (w : World Obj) :
  onDraw w = Nat.iter (Z.to_nat N) performTest w.
Proof. unfold onDraw. apply for_loop_iter; unfold N; lia. Qed.

Lemma N_pos_succ : Z.to_nat N = Datatypes.S (Z.to_nat (N - 1)).
Proof. unfold N. lia. Qed.

Section EqualsRunFacts.
Context `{SkiaLib}.

(** One call, with the wrap-around left in: no bound on the counter is
    needed. *)
Lemma equals_performTest_counter_mod (w : World EqualsMatrixBench.t) :
  reset_matrices_equal ->
  gMatrixBench_NonStaticGlobal (EqualsMatrixBench.performTest w)
    = wrap_int (gMatrixBench_NonStaticGlobal w + (3 + type_guards_taken)).
Proof.
  intros Heq. unfold EqualsMatrixBench.performTest, type_guards_taken.
  rewrite Heq. destruct w as [g o].
  destruct (int_to_bool (getType (reset SkMatrix_default)));
    cbn [always_do incr_global gMatrixBench_NonStaticGlobal self];
    repeat (rewrite wrap_int_add_l || rewrite <- Z.add_assoc);
    f_equal; lia.
Qed.

Lemma equals_iter_counter (n : nat) (w : World EqualsMatrixBench.t) :
  reset_matrices_equal ->
  gMatrixBench_NonStaticGlobal
    (Nat.iter (Datatypes.S n) EqualsMatrixBench.performTest w)
  = wrap_int (gMatrixBench_NonStaticGlobal w
              + Z.of_nat (Datatypes.S n) * (3 + type_guards_taken)).
Proof.
  intros Heq. induction n as [|n IH].
  - cbn [Nat.iter nat_rect]. rewrite equals_performTest_counter_mod by exact Heq.
    f_equal. lia.
  - change (Nat.iter (Datatypes.S (Datatypes.S n)) EqualsMatrixBench.performTest w)
      with (EqualsMatrixBench.performTest
              (Nat.iter (Datatypes.S n) EqualsMatrixBench.performTest w)).
    rewrite equals_performTest_counter_mod by exact Heq.
    rewrite IH, wrap_int_add_l. f_equal. lia.
Qed.

Lemma equals_iter_self (n : nat) (w : World EqualsMatrixBench.t) :
  self (Nat.iter n EqualsMatrixBench.performTest w) = self w.
Proof.
  induction n as [|n IH]; [reflexivity|].
  change (Nat.iter (Datatypes.S n) EqualsMatrixBench.performTest w)
    with (EqualsMatrixBench.performTest
            (Nat.iter n EqualsMatrixBench.performTest w)).
  rewrite equals_performTest_self. exact IH.
Qed.
End EqualsRunFacts.

(** X4. One [onDraw] of [EqualsMatrixBench], when reset matrices compare
    equal, adds 100000 * (3 + k) to the global counter modulo 2^32, where k
    is 3 if [getType()] of a reset matrix is non-zero and 0 otherwise; when
    that sum stays within [int] the counter holds it exactly.  The
    benchmark object is left as it was. *)
Theorem equals_onDraw_counter :
  forall (A : Arith) (L : SkiaLib) (w : World EqualsMatrixBench.t),
    reset_matrices_equal ->
    let g := gMatrixBench_NonStaticGlobal w in
    let total := g + 100000 * (3 + type_guards_taken) in
    let w' := @onDraw _ EqualsMatrixBench.bench w in
    gMatrixBench_NonStaticGlobal w' = wrap_int total /\
    (INT_MIN <= g -> total <= INT_MAX ->
     gMatrixBench_NonStaticGlobal w' = total) /\
    self w' = self w.
Proof.
  intros A L w Heq g total w'.
  assert (Hw' : w' = Nat.iter (Z.to_nat N) EqualsMatrixBench.performTest w)
    by exact (@onDraw_as_iter _ EqualsMatrixBench.bench w).
  clearbody w'. subst w'.
  assert (Hg : gMatrixBench_NonStaticGlobal
                 (Nat.iter (Z.to_nat N) EqualsMatrixBench.performTest w)
               = wrap_int total).
  { rewrite N_pos_succ, equals_iter_counter by exact Heq.
    replace (Z.of_nat (Datatypes.S (Z.to_nat (N - 1)))) with 100000
      by (unfold N; lia).
    reflexivity. }
  split; [exact Hg|]. split.
  - intros Hlo Hhi. rewrite Hg. apply wrap_int_id.
    subst total. unfold type_guards_taken in *.
    destruct (int_to_bool _); lia.
  - apply equals_iter_self.
Qed.

Lemma equals_onDraw_counter_witness :
  gMatrixBench_NonStaticGlobal
    (@onDraw _ (@EqualsMatrixBench.bench _ Reference.lib)
       (mkWorld 5 EqualsMatrixBench.ctor))
  = 5 + 100000 * (3 + @type_guards_taken _ Reference.lib).
Proof.
  refine (proj1 (proj2 (equals_onDraw_counter exact_arith Reference.lib
                          (mkWorld 5 EqualsMatrixBench.ctor)
                          reference_reset_matrices_equal)) _ _).
  - vm_compute. congruence.
  - vm_compute. congruence.
Defined.

(** X5. Whatever the matrix library does, one call of
    [EqualsMatrixBench::performTest] started with the counter at most
    [INT_MAX - 6] never lowers the counter and raises it by at most 6 (one
    per guard), and leaves the benchmark object alone. *)
Theorem equals_performTest_counter_bounds :
  forall (A : Arith) (L : SkiaLib) (w : World EqualsMatrixBench.t),
    INT_MIN <= gMatrixBench_NonStaticGlobal w <= INT_MAX - 6 ->
    gMatrixBench_NonStaticGlobal w
      <= gMatrixBench_NonStaticGlobal (EqualsMatrixBench.performTest w)
      <= gMatrixBench_NonStaticGlobal w + 6 /\
    self (EqualsMatrixBench.performTest w) = self w.
Proof.
  intros A L [g o] Hg. cbn [gMatrixBench_NonStaticGlobal] in Hg.
  split; [|apply equals_performTest_self].
  unfold EqualsMatrixBench.performTest.
  destruct (mat_eq _ _), (int_to_bool _);
    cbn [always_do incr_global gMatrixBench_NonStaticGlobal self];
    unwrap_int; lia.
Qed.

Lemma equals_performTest_counter_bounds_witness :
  0 <= gMatrixBench_NonStaticGlobal
         (@EqualsMatrixBench.performTest _ Reference.lib
            (mkWorld 0 EqualsMatrixBench.ctor)) <= 0 + 6.
Proof.
  refine (proj1 (equals_performTest_counter_bounds exact_arith Reference.lib
                   (mkWorld 0 EqualsMatrixBench.ctor) _)).
  vm_compute. split; congruence.
Defined.

(** ** Whole runs of the other benchmarks *)

Lemma iter_fixed {S : Type} (f : S -> S) (s : S) :
  f s = s -> forall n : nat, Nat.iter n f s = s.
Proof.
  intros Hf n. induction n as [|n IH]; [reflexivity|].
  change (Nat.iter (Datatypes.S n) f s) with (f (Nat.iter n f s)).
  rewrite IH. exact Hf.
Qed.

Section ConcatRunFacts.
Context `{Arith}.

Lemma float_performTest_idem (w : World FloatConcatMatrixBench.t) :
  FloatConcatMatrixBench.performTest (FloatConcatMatrixBench.performTest w)
  = FloatConcatMatrixBench.performTest w.
Proof.
  rewrite !float_performTest_closed. destruct w as [g [nm a b r]].
  reflexivity.
Qed.

Lemma float_double_performTest_idem (w : World FloatDoubleConcatMatrixBench.t) :
  FloatDoubleConcatMatrixBench.performTest
    (FloatDoubleConcatMatrixBench.performTest w)
  = FloatDoubleConcatMatrixBench.performTest w.
Proof.
  rewrite !float_double_performTest_closed. destruct w as [g [nm a b r]].
  reflexivity.
Qed.

Lemma double_performTest_idem (w : World DoubleConcatMatrixBench.t) :
  DoubleConcatMatrixBench.performTest (DoubleConcatMatrixBench.performTest w)
  = DoubleConcatMatrixBench.performTest w.
Proof.
  rewrite !double_performTest_closed. destruct w as [g [nm a b r]].
  reflexivity.
Qed.
End ConcatRunFacts.

(** X6. The 100000 iterations of [onDraw] leave a concat benchmark in the
    state one single call of [performTest] leaves it in (every call redoes
    the same work on the same inputs), and leave a [ScaleMatrixBench] with
    the state it started from. *)
Theorem onDraw_of_repeating_benchmarks :
  forall (A : Arith) (L : SkiaLib)
         (wf : World FloatConcatMatrixBench.t)
         (wfd : World FloatDoubleConcatMatrixBench.t)
         (wd : World DoubleConcatMatrixBench.t)
         (ws : World ScaleMatrixBench.t),
    @onDraw _ FloatConcatMatrixBench.bench wf
      = FloatConcatMatrixBench.performTest wf /\
    @onDraw _ FloatDoubleConcatMatrixBench.bench wfd
      = FloatDoubleConcatMatrixBench.performTest wfd /\
    @onDraw _ DoubleConcatMatrixBench.bench wd
      = DoubleConcatMatrixBench.performTest wd /\
    @onDraw _ ScaleMatrixBench.bench ws = ws.
Proof.
  intros A L wf wfd wd ws.
  pose proof (@onDraw_as_iter _ FloatConcatMatrixBench.bench wf) as Hf.
  pose proof (@onDraw_as_iter _ FloatDoubleConcatMatrixBench.bench wfd) as Hfd.
  pose proof (@onDraw_as_iter _ DoubleConcatMatrixBench.bench wd) as Hd.
  pose proof (@onDraw_as_iter _ ScaleMatrixBench.bench ws) as Hs.
  rewrite N_pos_succ in Hf, Hfd, Hd.
  cbn [performTest FloatConcatMatrixBench.bench
       FloatDoubleConcatMatrixBench.bench DoubleConcatMatrixBench.bench
       ScaleMatrixBench.bench] in *.
  split; [|split; [|split]].
  - etransitivity; [exact Hf|].
    apply iter_idempotent, float_performTest_idem.
  - etransitivity; [exact Hfd|].
    apply iter_idempotent, float_double_performTest_idem.
  - etransitivity; [exact Hd|].
    apply iter_idempotent, double_performTest_idem.
  - etransitivity; [exact Hs|].
    apply iter_fixed, scale_performTest_id.
Qed.

(** ** What [muladdmul] writes *)

(** X7. Whatever pointer it is handed, each [muladdmul] writes the one cell
    it points to and nothing else: every other cell of the three arrays, the
    inherited sub-object and the global counter are as before. *)
Theorem muladdmul_writes_one_cell :
  forall (A : Arith) (p q : ptr),
    p <> q ->
    (forall (a b c d : float) (w : World FloatConcatMatrixBench.t),
        let w' := FloatConcatMatrixBench.muladdmul a b c d p w in
        rd w' q = rd w q /\
        base (self w') = base (self w) /\
        gMatrixBench_NonStaticGlobal w' = gMatrixBench_NonStaticGlobal w) /\
    (forall (a b c d : float) (w : World FloatDoubleConcatMatrixBench.t),
        let w' := FloatDoubleConcatMatrixBench.muladdmul a b c d p w in
        rd w' q = rd w q /\
        base (self w') = base (self w) /\
        gMatrixBench_NonStaticGlobal w' = gMatrixBench_NonStaticGlobal w) /\
    (forall (a b c d : double) (w : World DoubleConcatMatrixBench.t),
        let w' := DoubleConcatMatrixBench.muladdmul a b c d p w in
        rd w' q = rd w q /\
        base (self w') = base (self w) /\
        gMatrixBench_NonStaticGlobal w' = gMatrixBench_NonStaticGlobal w).
Proof.
  intros A p q Hpq.
  split; [|split]; intros a b c d w w'; subst w';
    unfold FloatConcatMatrixBench.muladdmul,
           FloatDoubleConcatMatrixBench.muladdmul,
           DoubleConcatMatrixBench.muladdmul;
    (split; [apply rd_store_other; exact Hpq|]);
    match goal with
    | |- context [store ?p ?v ?w] =>
        destruct (store_frame p v w) as (Hg & Hb & _)
    end;
    split; assumption.
Qed.

Lemma muladdmul_writes_one_cell_witness :
  rd (@FloatConcatMatrixBench.muladdmul exact_arith 1%Qc 1%Qc 1%Qc 1%Qc
        Myr.[0] Sample.world) Mya.[0]
  = rd Sample.world Mya.[0].
Proof.
  assert (Hne : Myr.[0] <> Mya.[0]) by discriminate.
  destruct (muladdmul_writes_one_cell exact_arith Myr.[0] Mya.[0] Hne)
    as (Hf & _).
  exact (proj1 (Hf 1%Qc 1%Qc 1%Qc 1%Qc Sample.world)).
Defined.

(** ** The function a concat call computes *)

Lemma concat_exact_closed (a b : vec Qc 9) :
  concat_exact a b
  = concat_cells (@mam_float exact_arith) Qcplus 0%Qc 1%Qc a b.
Proof.
  unfold concat_exact, concat_world.
  rewrite (@float_performTest_closed exact_arith). reflexivity.
Qed.

Ltac open_vec9 v :=
  let x0 := fresh v "0" in let x1 := fresh v "1" in let x2 := fresh v "2" in
  let x3 := fresh v "3" in let x4 := fresh v "4" in let x5 := fresh v "5" in
  let x6 := fresh v "6" in let x7 := fresh v "7" in let x8 := fresh v "8" in
  inv_vec v; intros x0 x1 x2 x3 x4 x5 x6 x7 x8.

(** X8. A concat call never reads the third rows of its inputs: replacing
    cells 6, 7 and 8 of [mya] and of [myb] by anything leaves the result of
    the call unchanged, in each of the three classes and whatever the
    arithmetic. *)
Theorem concat_ignores_third_rows :
  forall (A : Arith) (g : Z) (nm : MatrixBench)
         (a b r : vec float 9) (x y z x' y' z' : float)
         (ad bd rd' : vec double 9) (xd yd zd xd' yd' zd' : double),
    myr (self (FloatConcatMatrixBench.performTest
                 (concat_world g nm (with_last_row x y z a)
                               (with_last_row x' y' z' b) r)))
    = myr (self (FloatConcatMatrixBench.performTest
                   (concat_world g nm a b r))) /\
    myr (self (FloatDoubleConcatMatrixBench.performTest
                 (concat_world g nm (with_last_row x y z a)
                               (with_last_row x' y' z' b) r)))
    = myr (self (FloatDoubleConcatMatrixBench.performTest
                   (concat_world g nm a b r))) /\
    myr (self (DoubleConcatMatrixBench.performTest
                 (concat_world g nm (with_last_row xd yd zd ad)
                               (with_last_row xd' yd' zd' bd) rd')))
    = myr (self (DoubleConcatMatrixBench.performTest
                   (concat_world g nm ad bd rd'))).
Proof.
  intros. rewrite !float_performTest_closed, !float_double_performTest_closed,
                  !double_performTest_closed.
  unfold concat_world. cbn [self mya myb myr set_self set_array].
  open_vec9 a. open_vec9 b. open_vec9 ad. open_vec9 bd.
  repeat split.
Qed.

(** X9. Over the rationals, for every pair of inputs, affine or not, a
    concat call leaves in [myr] the matrix product of the affine parts of
    [mya] and [myb] (the inputs with their third rows replaced by
    (0, 0, 1)), in each of the three classes. *)
Theorem concat_multiplies_affine_parts :
  forall (g : Z) (nm : MatrixBench) (a b r : vec Qc 9),
    let w : World (ConcatFields Qc) := concat_world g nm a b r in
    let product :=
      matrix_product Qcplus Qcmult
        (affine_part 0%Qc 1%Qc a) (affine_part 0%Qc 1%Qc b) in
    myr (self (@FloatConcatMatrixBench.performTest exact_arith w)) = product /\
    myr (self (@FloatDoubleConcatMatrixBench.performTest exact_arith w))
      = product /\
    myr (self (@DoubleConcatMatrixBench.performTest exact_arith w)) = product.
Proof.
  intros g nm a b r w product.
  rewrite (@float_performTest_closed exact_arith),
          (@float_double_performTest_closed exact_arith),
          (@double_performTest_closed exact_arith).
  assert (Hp : concat_cells (@mam_float exact_arith) Qcplus 0%Qc 1%Qc a b
               = product).
  { subst product. open_vec9 a. open_vec9 b.
    unfold matrix_product, product_entry, entry, affine_part, concat_cells,
           mam_float.
    cbn -[Qcplus Qcmult].
    repeat (f_equal; try ring). }
  repeat split; exact Hp.
Qed.

(** X10. Over the rationals the function a concat call computes is
    associative on all inputs, and the identity matrix is neutral for it up
    to the affine part: concatenating with the identity, on either side,
    returns the other input with its third row set to (0, 0, 1). *)
Theorem concat_exact_monoid :
  forall a b c : vec Qc 9,
    let identity : vec Qc 9 := [# 1; 0; 0;  0; 1; 0;  0; 0; 1 ]%Qc in
    concat_exact (concat_exact a b) c = concat_exact a (concat_exact b c) /\
    concat_exact identity b = affine_part 0%Qc 1%Qc b /\
    concat_exact a identity = affine_part 0%Qc 1%Qc a /\
    affine_last_row (concat_exact a b).
Proof.
  intros a b c identity. subst identity.
  rewrite !concat_exact_closed.
  open_vec9 a. open_vec9 b. open_vec9 c.
  unfold concat_cells, mam_float, affine_part, affine_last_row.
  cbn -[Qcplus Qcmult].
  repeat split; repeat (f_equal; try ring).
Qed.

(** ** The constructor of [ScaleMatrixBench], continued *)

(** X11. What a [ScaleMatrixBench] is constructed as depends on what its
    storage held: the scalars always end up 1.5, but when [setScale] tells
    its arguments apart, two constructions yield the same object exactly
    when they found the same leftovers in [fSX] and [fSY]. *)
Theorem scale_ctor_depends_on_leftovers :
  forall (A : Arith) (L : SkiaLib),
    (forall (x y x' y' : SkScalar) (m : SkMatrix),
        setScale x y m = setScale x' y' m -> x = x' /\ y = y') ->
    forall x y x' y' : SkScalar,
      (ScaleMatrixBench.ctor x y = ScaleMatrixBench.ctor x' y'
       <-> x = x' /\ y = y') /\
      ScaleMatrixBench.fSX (ScaleMatrixBench.ctor x y)
        = ScaleMatrixBench.fSX (ScaleMatrixBench.ctor x' y') /\
      ScaleMatrixBench.fSY (ScaleMatrixBench.ctor x y)
        = ScaleMatrixBench.fSY (ScaleMatrixBench.ctor x' y').
Proof.
  intros A L Hinj x y x' y'. split; [|split; reflexivity]. split.
  - intros Heq.
    apply (f_equal ScaleMatrixBench.fM1) in Heq. cbn in Heq.
    exact (Hinj _ _ _ _ _ Heq).
  - intros [-> ->]. reflexivity.
Qed.

Lemma reference_setScale_injective :
  forall (x y x' y' : Qc) (m : Reference.Matrix),
    Reference.lib.(setScale) x y m = Reference.lib.(setScale) x' y' m ->
    x = x' /\ y = y'.
Proof.
  intros x y x' y' m Heq. cbn in Heq. unfold Reference.scale_matrix in Heq.
  split.
  - exact (f_equal (fun v : vec Qc 9 => v@[0]) Heq).
  - exact (f_equal (fun v : vec Qc 9 => v@[4]) Heq).
Qed.

Lemma scale_ctor_depends_on_leftovers_witness :
  @ScaleMatrixBench.ctor _ Reference.lib (Sample.of_int 7) (Sample.of_int 9)
    = @ScaleMatrixBench.ctor _ Reference.lib (Sample.of_int 1) (Sample.of_int 2)
  <-> Sample.of_int 7 = Sample.of_int 1 /\ Sample.of_int 9 = Sample.of_int 2.
Proof.
  exact (proj1 (scale_ctor_depends_on_leftovers exact_arith Reference.lib
                  reference_setScale_injective
                  (Sample.of_int 7) (Sample.of_int 9)
                  (Sample.of_int 1) (Sample.of_int 2))).
Defined.

(** ** Machine arithmetic: not-a-number operands *)

Lemma SFmul_nan prec emax x y :
  is_nan x || is_nan y = true -> SFmul prec emax x y = S754_nan.
Proof. destruct x, y; cbn; intros Hn; try discriminate Hn; reflexivity. Qed.

Lemma SFadd_nan prec emax x y :
  is_nan x || is_nan y = true -> SFadd prec emax x y = S754_nan.
Proof. destruct x, y; cbn; intros Hn; try discriminate Hn; reflexivity. Qed.

Lemma convert_nan prec emax x :
  is_nan x = true -> IEEE.convert prec emax x = S754_nan.
Proof. destruct x; cbn; intros Hn; try discriminate Hn; reflexivity. Qed.

Lemma is_nan_inv x : is_nan x = true -> x = S754_nan.
Proof. destruct x; cbn; intros Hn; try discriminate Hn; reflexivity. Qed.

(** X12. With [float] as binary32 and [double] as binary64, a NaN in any of
    the four operands makes each of the three [muladdmul] store a NaN. *)
Theorem muladdmul_propagates_nan :
  (forall (a b c d : IEEE.float32) (p : ptr)
          (w : World (@FloatConcatMatrixBench.t ieee_arith)),
      is_nan (IEEE.bits32 a) || is_nan (IEEE.bits32 b)
        || is_nan (IEEE.bits32 c) || is_nan (IEEE.bits32 d) = true ->
      rd (@FloatConcatMatrixBench.muladdmul ieee_arith a b c d p w) p
        = IEEE.F32 S754_nan /\
      rd (@FloatDoubleConcatMatrixBench.muladdmul ieee_arith a b c d p w) p
        = IEEE.F32 S754_nan) /\
  (forall (a b c d : IEEE.float64) (p : ptr)
          (w : World (@DoubleConcatMatrixBench.t ieee_arith)),
      is_nan (IEEE.bits64 a) || is_nan (IEEE.bits64 b)
        || is_nan (IEEE.bits64 c) || is_nan (IEEE.bits64 d) = true ->
      rd (@DoubleConcatMatrixBench.muladdmul ieee_arith a b c d p w) p
        = IEEE.F64 S754_nan).
Proof.
  split.
  - intros [a] [b] [c] [d] p w Hn. cbn [IEEE.bits32] in Hn.
    rewrite (@float_muladdmul_stores ieee_arith),
            (@float_double_muladdmul_stores ieee_arith).
    unfold mam_float, mam_float_double.
    cbn [fadd fmul dadd dmul float_to_double double_to_float ieee_arith].
    unfold IEEE.add32, IEEE.mul32, IEEE.add64, IEEE.mul64, IEEE.widen,
           IEEE.narrow.
    cbn [IEEE.bits32 IEEE.bits64].
    apply orb_true_iff in Hn as [Hn|Hd].
    1: apply orb_true_iff in Hn as [Hn|Hc].
    1: apply orb_true_iff in Hn as [Ha|Hb].
    all: repeat match goal with
                | Hx : is_nan _ = true |- _ => apply is_nan_inv in Hx; subst
                end.
    all: split; f_equal.
    all: repeat first
           [ rewrite (SFmul_nan _ _ S754_nan _) by reflexivity
           | rewrite (SFmul_nan _ _ _ S754_nan)
               by (cbn; apply orb_true_r)
           | rewrite (SFadd_nan _ _ S754_nan _) by reflexivity
           | rewrite (SFadd_nan _ _ _ S754_nan)
               by (cbn; apply orb_true_r)
           | progress cbn [IEEE.convert] ].
    all: reflexivity.
  - intros [a] [b] [c] [d] p w Hn. cbn [IEEE.bits64] in Hn.
    rewrite (@double_muladdmul_stores ieee_arith).
    unfold mam_double. cbn [dadd dmul ieee_arith].
    unfold IEEE.add64, IEEE.mul64. cbn [IEEE.bits64].
    apply orb_true_iff in Hn as [Hn|Hd].
    1: apply orb_true_iff in Hn as [Hn|Hc].
    1: apply orb_true_iff in Hn as [Ha|Hb].
    all: repeat match goal with
                | Hx : is_nan _ = true |- _ => apply is_nan_inv in Hx; subst
                end.
    all: f_equal.
    all: repeat first
           [ rewrite (SFmul_nan _ _ S754_nan _) by reflexivity
           | rewrite (SFmul_nan _ _ _ S754_nan)
               by (cbn; apply orb_true_r)
           | rewrite (SFadd_nan _ _ S754_nan _) by reflexivity
           | rewrite (SFadd_nan _ _ _ S754_nan)
               by (cbn; apply orb_true_r) ].
    all: reflexivity.
Qed.

Lemma muladdmul_propagates_nan_witness :
  rd (@FloatDoubleConcatMatrixBench.muladdmul ieee_arith
        (IEEE.F32 S754_nan) Sample.x1 Sample.x2 Sample.p1
        Myr.[0] (concat_world 0 (MatrixBench_ctor "nan")
                   (vreplicate 9 Sample.z0) (vreplicate 9 Sample.z0)
                   (vreplicate 9 Sample.z0)))
     Myr.[0]
  = IEEE.F32 S754_nan.
Proof.
  refine (proj2 (proj1 muladdmul_propagates_nan
                   (IEEE.F32 S754_nan) Sample.x1 Sample.x2 Sample.p1
                   Myr.[0] _ _)).
  reflexivity.
Defined.

(** ** Machine arithmetic: widening and narrowing back *)

Section Conversions.
Import IEEE.

Lemma iter_pos_iter {X : Type} (f : X -> X) (p : positive) :
  forall x, SpecFloat.iter_pos f p x = Pos.iter f x p.
Proof.
  induction p as [p IH|p IH|]; intros x; cbn [SpecFloat.iter_pos Pos.iter].
  - rewrite !IH, !Pos.iter_swap. reflexivity.
  - rewrite !IH. reflexivity.
  - reflexivity.
Qed.

(** Shifting right undoes shifting left, with nothing lost. *)
Lemma shr_shl (p : positive) : forall m : positive,
  SpecFloat.iter_pos shr_1 p (Build_shr_record (Z.pos (Pos.iter xO m p)) false false)
  = Build_shr_record (Z.pos m) false false.
Proof.
  intros m. rewrite iter_pos_iter. revert m.
  induction p as [|p IH] using Pos.peano_ind; intros m.
  - reflexivity.
  - rewrite Pos.iter_succ_r, Pos.iter_succ. cbn [shr_1 orb]. apply IH.
Qed.

Lemma digits2_pos_shl (p m : positive) :
  digits2_pos (Pos.iter xO m p) = (digits2_pos m + p)%positive.
Proof.
  induction p as [|p IH] using Pos.peano_ind.
  - cbn. lia.
  - rewrite Pos.iter_succ. cbn [digits2_pos]. rewrite IH. lia.
Qed.

(** A mantissa that is already canonical is left alone by the rounding. *)
Lemma shr_fexp_canonical prec emax (m : positive) (e : Z) :
  fexp prec emax (Z.pos (digits2_pos m) + e) = e ->
  shr_fexp prec emax (Z.pos m) e loc_Exact
  = (Build_shr_record (Z.pos m) false false, e).
Proof.
  intros Hc. unfold shr_fexp. cbn [Zdigits2 shr_record_of_loc].
  rewrite Hc, Z.sub_diag. reflexivity.
Qed.

Lemma binary_round_aux_canonical prec emax s (m : positive) (e : Z) :
  fexp prec emax (Z.pos (digits2_pos m) + e) = e ->
  e <= emax - prec ->
  binary_round_aux prec emax s (Z.pos m) e loc_Exact = S754_finite s m e.
Proof.
  intros Hc He. unfold binary_round_aux.
  rewrite shr_fexp_canonical by exact Hc.
  cbn [shr_m loc_of_shr_record round_nearest_even].
  rewrite shr_fexp_canonical by exact Hc.
  cbn [shr_m]. destruct (Z.leb_spec e (emax - prec)); [reflexivity | lia].
Qed.

(** What [bounded] says of a binary32 datum. *)
Lemma bounded32_inv (m : positive) (e : Z) :
  bounded prec32 emax32 m e = true ->
  fexp prec32 emax32 (Z.pos (digits2_pos m) + e) = e /\
  Z.pos (digits2_pos m) <= 24 /\ -149 <= e <= 104.
Proof.
  unfold bounded, canonical_mantissa. intros Hb.
  apply andb_true_iff in Hb as [Hc He].
  apply Z.eqb_eq in Hc. apply Z.leb_le in He.
  split; [exact Hc|].
  unfold fexp, emin, prec32, emax32 in *. lia.
Qed.

Lemma widen_finite s (m : positive) (e : Z) :
  bounded prec32 emax32 m e = true ->
  binary_round prec64 emax64 s m e
  = S754_finite s (Pos.iter xO m (Z.to_pos (53 - Z.pos (digits2_pos m))))
                (Z.pos (digits2_pos m) + e - 53).
Proof.
  intros Hb. destruct (bounded32_inv m e Hb) as (_ & Hd & He).
  set (d := digits2_pos m) in *. set (k := Z.to_pos (53 - Z.pos d)).
  assert (Hk : Z.pos k = 53 - Z.pos d) by (apply Z2Pos.id; lia).
  unfold binary_round.
  assert (Hf : fexp prec64 emax64 (Z.pos d + e) = Z.pos d + e - 53)
    by (unfold fexp, emin, prec64, emax64; lia).
  fold d. rewrite Hf. unfold shl_align.
  replace (Z.pos d + e - 53 - e) with (Z.neg k) by lia.
  apply binary_round_aux_canonical.
  - rewrite digits2_pos_shl. fold d.
    unfold fexp, emin, prec64, emax64. lia.
  - unfold prec64, emax64. lia.
Qed.

Lemma narrow_widened s (m : positive) (e : Z) :
  bounded prec32 emax32 m e = true ->
  binary_round prec32 emax32 s
    (Pos.iter xO m (Z.to_pos (53 - Z.pos (digits2_pos m))))
    (Z.pos (digits2_pos m) + e - 53)
  = S754_finite s m e.
Proof.
  intros Hb. destruct (bounded32_inv m e Hb) as (Hc & Hd & He).
  set (d := digits2_pos m) in *. set (k := Z.to_pos (53 - Z.pos d)).
  assert (Hk : Z.pos k = 53 - Z.pos d) by (apply Z2Pos.id; lia).
  assert (Hdk : Z.pos (digits2_pos (Pos.iter xO m k)) = 53)
    by (rewrite digits2_pos_shl; fold d; lia).
  assert (Hf : fexp prec32 emax32 (53 + (Z.pos d + e - 53)) = e)
    by (rewrite <- Hc at 2; f_equal; lia).
  unfold binary_round. rewrite Hdk, Hf. unfold shl_align.
  replace (e - (Z.pos d + e - 53)) with (Z.pos k) by lia.
  unfold binary_round_aux.
  unfold shr_fexp at 1. cbn [Zdigits2 shr_record_of_loc].
  rewrite Hdk, Hf.
  replace (e - (Z.pos d + e - 53)) with (Z.pos k) by lia.
  unfold shr. rewrite shr_shl.
  cbn [shr_m loc_of_shr_record round_nearest_even].
  replace (Z.pos d + e - 53 + Z.pos k) with e by lia.
  rewrite shr_fexp_canonical by exact Hc.
  cbn [shr_m]. destruct (Z.leb_spec e (emax32 - prec32)); [reflexivity|].
  unfold emax32, prec32 in *. lia.
Qed.
End Conversions.

(** X13. Widening a binary32 datum to binary64 and narrowing it back with
    [SkDoubleToFloat] returns the datum: the conversion to [double] in the
    double-intermediate [muladdmul] loses nothing. *)
Theorem narrow_after_widen :
  forall x : IEEE.float32,
    valid32 x = true ->
    @SkDoubleToFloat ieee_arith (@float_to_double ieee_arith x) = x.
Proof.
  intros [x] Hv. unfold valid32 in Hv. cbn [IEEE.bits32] in Hv.
  unfold SkDoubleToFloat.
  cbn [double_to_float float_to_double ieee_arith].
  unfold IEEE.narrow, IEEE.widen. cbn [IEEE.bits32 IEEE.bits64]. f_equal.
  destruct x as [s|s| |s m e]; try reflexivity.
  cbn [valid_binary] in Hv. cbn [IEEE.convert].
  rewrite widen_finite by exact Hv. cbn [IEEE.convert].
  apply narrow_widened. exact Hv.
Qed.

Lemma narrow_after_widen_witness :
  @SkDoubleToFloat ieee_arith (@float_to_double ieee_arith Sample.x1)
  = Sample.x1.
Proof. apply narrow_after_widen. reflexivity. Defined.

(** ** Machine arithmetic: the products of the double-intermediate step *)

Section WidenedProducts.
Import IEEE.

Lemma shl_value (p m : positive) :
  Z.pos (Pos.iter xO m p) = Z.pos m * 2 ^ Z.pos p.
Proof.
  induction p as [|p IH] using Pos.peano_ind.
  - cbn [Pos.iter]. lia.
  - rewrite Pos.iter_succ, Pos2Z.inj_xO, IH, Pos2Z.inj_succ.
    rewrite Z.pow_succ_r by lia. lia.
Qed.

(** A number of [d] binary digits lies between [2^(d-1)] and [2^d]. *)
Lemma digits2_pos_bounds (m : positive) :
  2 ^ (Z.pos (digits2_pos m) - 1) <= Z.pos m < 2 ^ Z.pos (digits2_pos m).
Proof.
  induction m as [m IH|m IH|]; cbn [digits2_pos].
  - rewrite Pos2Z.inj_succ, (Pos2Z.inj_xI m).
    replace (Z.succ (Z.pos (digits2_pos m)) - 1)
      with (Z.succ (Z.pos (digits2_pos m) - 1)) by lia.
    rewrite !Z.pow_succ_r by lia. lia.
  - rewrite Pos2Z.inj_succ, (Pos2Z.inj_xO m).
    replace (Z.succ (Z.pos (digits2_pos m)) - 1)
      with (Z.succ (Z.pos (digits2_pos m) - 1)) by lia.
    rewrite !Z.pow_succ_r by lia. lia.
  - cbn. lia.
Qed.

Lemma digits2_pos_unique (m : positive) (d : Z) :
  2 ^ (d - 1) <= Z.pos m < 2 ^ d -> 0 < d -> Z.pos (digits2_pos m) = d.
Proof.
  intros [Hlo Hhi] Hd. pose proof (digits2_pos_bounds m) as [Hlo' Hhi'].
  destruct (Z.lt_trichotomy (Z.pos (digits2_pos m)) d) as [Hlt|[Heq|Hgt]];
    [exfalso|exact Heq|exfalso].
  - assert (2 ^ Z.pos (digits2_pos m) <= 2 ^ (d - 1))
      by (apply Z.pow_le_mono_r; lia). lia.
  - assert (2 ^ d <= 2 ^ (Z.pos (digits2_pos m) - 1))
      by (apply Z.pow_le_mono_r; lia). lia.
Qed.

(** The digits of a product: the sum of the digits, or one less. *)
Lemma digits2_pos_mul (m1 m2 : positive) :
  Z.pos (digits2_pos m1) + Z.pos (digits2_pos m2) - 1
    <= Z.pos (digits2_pos (m1 * m2))
    <= Z.pos (digits2_pos m1) + Z.pos (digits2_pos m2).
Proof.
  pose proof (digits2_pos_bounds m1) as [L1 H1].
  pose proof (digits2_pos_bounds m2) as [L2 H2].
  pose proof (digits2_pos_bounds (m1 * m2)) as [L H].
  set (d1 := Z.pos (digits2_pos m1)) in *.
  set (d2 := Z.pos (digits2_pos m2)) in *.
  set (d := Z.pos (digits2_pos (m1 * m2))) in *.
  assert (Hd1 : 0 < d1) by (subst d1; lia).
  assert (Hd2 : 0 < d2) by (subst d2; lia).
  assert (Hd : 0 < d) by (subst d; lia).
  rewrite Pos2Z.inj_mul in L, H.
  assert (Hup : Z.pos m1 * Z.pos m2 < 2 ^ (d1 + d2)).
  { rewrite Z.pow_add_r by lia. nia. }
  assert (Hdn : 2 ^ (d1 + d2 - 2) <= Z.pos m1 * Z.pos m2).
  { replace (d1 + d2 - 2) with ((d1 - 1) + (d2 - 1)) by lia.
    rewrite Z.pow_add_r by lia.
    pose proof (Z.pow_pos_nonneg 2 (d1 - 1) ltac:(lia) ltac:(lia)).
    pose proof (Z.pow_pos_nonneg 2 (d2 - 1) ltac:(lia) ltac:(lia)).
    nia. }
  split.
  - destruct (Z.le_gt_cases (d1 + d2 - 1) d) as [Hle|Hgt]; [exact Hle|].
    exfalso.
    assert (2 ^ d <= 2 ^ (d1 + d2 - 2)) by (apply Z.pow_le_mono_r; lia). lia.
  - destruct (Z.le_gt_cases d (d1 + d2)) as [Hle|Hgt]; [exact Hle|].
    exfalso.
    assert (2 ^ (d1 + d2) <= 2 ^ (d - 1)) by (apply Z.pow_le_mono_r; lia). lia.
Qed.

(** Shifting right by [n] a mantissa that ends in at least [n] zero bits
    loses nothing. *)
Lemma shr_shl_more (n j q : positive) :
  SpecFloat.iter_pos shr_1 n
    (Build_shr_record (Z.pos (Pos.iter xO q (n + j))) false false)
  = Build_shr_record (Z.pos (Pos.iter xO q j)) false false.
Proof. rewrite Pos.iter_add. apply shr_shl. Qed.

Lemma pos_of_shl_value (m q : positive) (k : positive) :
  Z.pos m = Z.pos q * 2 ^ Z.pos k -> m = Pos.iter xO q k.
Proof. intros Hm. apply Pos2Z.inj. rewrite shl_value. exact Hm. Qed.

(** The product of two widened binary32 data, computed in binary64, is a
    finite number whose value is the product of the values: mantissa [M] and
    exponent [E] with [M * 2^E = m1 * m2 * 2^(e1 + e2)]. *)
Lemma widened_product_exact s1 m1 e1 s2 m2 e2 :
  bounded prec32 emax32 m1 e1 = true ->
  bounded prec32 emax32 m2 e2 = true ->
  exists (M : positive) (E : Z),
    SFmul prec64 emax64
      (convert prec64 emax64 (S754_finite s1 m1 e1))
      (convert prec64 emax64 (S754_finite s2 m2 e2))
    = S754_finite (xorb s1 s2) M E /\
    E <= e1 + e2 /\
    Z.pos M = Z.pos m1 * Z.pos m2 * 2 ^ (e1 + e2 - E).
Proof.
  intros Hb1 Hb2. cbn [convert].
  rewrite (widen_finite s1 m1 e1 Hb1), (widen_finite s2 m2 e2 Hb2).
  destruct (bounded32_inv m1 e1 Hb1) as (_ & Hd1 & He1).
  destruct (bounded32_inv m2 e2 Hb2) as (_ & Hd2 & He2).
  pose proof (digits2_pos_mul m1 m2) as Hdm.
  set (d1 := digits2_pos m1) in *. set (d2 := digits2_pos m2) in *.
  set (dm := digits2_pos (m1 * m2)) in *.
  set (k1 := Z.to_pos (53 - Z.pos d1)). set (k2 := Z.to_pos (53 - Z.pos d2)).
  assert (Hk1 : Z.pos k1 = 53 - Z.pos d1) by (apply Z2Pos.id; lia).
  assert (Hk2 : Z.pos k2 = 53 - Z.pos d2) by (apply Z2Pos.id; lia).
  (* the shift the rounding applies, and what is left of the zero bits *)
  set (n := Z.to_pos (Z.pos dm + Z.pos k1 + Z.pos k2 - 53)).
  assert (Hn : Z.pos n = Z.pos dm + Z.pos k1 + Z.pos k2 - 53)
    by (apply Z2Pos.id; lia).
  set (j := Z.to_pos (Z.pos k1 + Z.pos k2 - Z.pos n)).
  assert (Hj : Z.pos j = Z.pos k1 + Z.pos k2 - Z.pos n)
    by (apply Z2Pos.id; lia).
  set (E := Z.pos d1 + e1 - 53 + (Z.pos d2 + e2 - 53)).
  assert (Hprod : (Pos.iter xO m1 k1 * Pos.iter xO m2 k2)%positive
                  = Pos.iter xO (m1 * m2)%positive (n + j)).
  { apply pos_of_shl_value.
    rewrite Pos2Z.inj_mul, !shl_value, Pos2Z.inj_mul, Pos2Z.inj_add.
    replace (Z.pos n + Z.pos j) with (Z.pos k1 + Z.pos k2) by lia.
    rewrite Z.pow_add_r by lia. ring. }
  exists (Pos.iter xO (m1 * m2)%positive j), (E + Z.pos n).
  split; [|split].
  - cbn [SFmul]. fold E. rewrite Hprod.
    unfold binary_round_aux.
    assert (Hdig : Z.pos (digits2_pos (Pos.iter xO (m1 * m2)%positive (n + j)))
                   = 53 + Z.pos n).
    { rewrite digits2_pos_shl. fold dm. lia. }
    assert (Hf : fexp prec64 emax64 (53 + Z.pos n + E) - E = Z.pos n).
    { unfold fexp, emin, prec64, emax64. subst E. lia. }
    unfold shr_fexp at 1. cbn [Zdigits2 shr_record_of_loc].
    rewrite Hdig, Hf. unfold shr. rewrite shr_shl_more.
    cbn [shr_m loc_of_shr_record round_nearest_even].
    assert (Hc : fexp prec64 emax64
                   (Z.pos (digits2_pos (Pos.iter xO (m1 * m2)%positive j))
                    + (E + Z.pos n)) = E + Z.pos n).
    { rewrite digits2_pos_shl. fold dm.
      unfold fexp, emin, prec64, emax64. subst E. lia. }
    rewrite shr_fexp_canonical by exact Hc.
    cbn [shr_m].
    destruct (Z.leb_spec (E + Z.pos n) (emax64 - prec64)); [reflexivity|].
    unfold emax64, prec64 in *. subst E. lia.
  - subst E. lia.
  - rewrite shl_value, Pos2Z.inj_mul. f_equal. f_equal. subst E. lia.
Qed.

Lemma SF2Q_finite_value (M : positive) (E : Z) (m1 m2 : positive) (e1 e2 : Z) :
  E <= e1 + e2 ->
  Z.pos M = Z.pos m1 * Z.pos m2 * 2 ^ (e1 + e2 - E) ->
  (inject_Z (Z.pos M) * Qpower 2 E
   == (inject_Z (Z.pos m1) * Qpower 2 e1) * (inject_Z (Z.pos m2) * Qpower 2 e2))%Q.
Proof.
  intros HE HM. rewrite HM, !inject_Z_mult.
  rewrite Zpower_Qpower by lia.
  assert (H2 : ~ (inject_Z 2 == 0)%Q) by discriminate.
  change (2%Q) with (inject_Z 2).
  rewrite <- !Qmult_assoc, <- (Qpower_plus _ _ _ H2).
  replace (e1 + e2 - E + E) with (e1 + e2) by lia.
  rewrite (Qpower_plus _ _ _ H2). ring.
Qed.
End WidenedProducts.

(** X14. In the double-intermediate [muladdmul] both products are exact:
    for binary32 data [a] and [b] that are finite, the binary64 product of
    their widenings is finite and its value is the product of their values.
    The only roundings of that step are those of the binary64 sum and of the
    final narrowing. *)
Theorem widened_products_are_exact :
  forall a b : IEEE.float32,
    valid32 a = true -> valid32 b = true ->
    is_finite (IEEE.bits32 a) = true -> is_finite (IEEE.bits32 b) = true ->
    let p := @dmul ieee_arith (@float_to_double ieee_arith a)
                              (@float_to_double ieee_arith b) in
    is_finite (IEEE.bits64 p) = true /\
    (IEEE.SF2Q (IEEE.bits64 p)
     == IEEE.SF2Q (IEEE.bits32 a) * IEEE.SF2Q (IEEE.bits32 b))%Q.
Proof.
  intros [a] [b] Hva Hvb Hfa Hfb p. subst p.
  unfold valid32 in *. cbn [IEEE.bits32] in *.
  cbn [dmul float_to_double ieee_arith].
  unfold IEEE.mul64, IEEE.widen. cbn [IEEE.bits32 IEEE.bits64].
  destruct a as [s1|s1| |s1 m1 e1]; try discriminate Hfa;
    destruct b as [s2|s2| |s2 m2 e2]; try discriminate Hfb;
    cbn [valid_binary] in Hva, Hvb.
  - cbn. split; [reflexivity | ring].
  - cbn [IEEE.convert]. rewrite (widen_finite s2 m2 e2 Hvb).
    cbn [SFmul is_finite IEEE.SF2Q]. split; [reflexivity | ring].
  - cbn [IEEE.convert]. rewrite (widen_finite s1 m1 e1 Hva).
    cbn [SFmul is_finite IEEE.SF2Q]. split; [reflexivity | ring].
  - destruct (widened_product_exact s1 m1 e1 s2 m2 e2 Hva Hvb)
      as (M & E & Heq & HE & HM).
    rewrite Heq. split; [reflexivity|].
    pose proof (SF2Q_finite_value M E m1 m2 e1 e2 HE HM) as Hv.
    cbn [IEEE.SF2Q]. cbv zeta.
    destruct s1, s2; cbn [xorb]; rewrite Hv; ring.
Qed.

Lemma widened_products_are_exact_witness :
  (IEEE.SF2Q (IEEE.bits64 (@dmul ieee_arith
                             (@float_to_double ieee_arith Sample.x1)
                             (@float_to_double ieee_arith Sample.x2)))
   == IEEE.SF2Q (IEEE.bits32 Sample.x1) * IEEE.SF2Q (IEEE.bits32 Sample.x2))%Q.
Proof.
  refine (proj2 (widened_products_are_exact Sample.x1 Sample.x2 _ _ _ _));
    reflexivity.
Defined.

(** * The arithmetic of the multiply-add step

    [SFmul], [SFadd] and the conversion between the formats are shown to
    compute the product, the sum and the number itself, rounded to nearest
    even in the format, as long as the rounded number is in range.  The
    three [muladdmul] are then characterised by the numbers they store. *)

(** ** Machine arithmetic: what the operations compute *)

Section ShiftRight.

Lemma shr_1_spec (m : Z) (r s : bool) :
  0 <= m ->
  shr_1 (Build_shr_record m r s) = Build_shr_record (m / 2) (Z.odd m) (r || s).
Proof.
  intros Hm. rewrite <- Z.div2_div.
  destruct m as [|[p|p|]|]; try lia; reflexivity.
Qed.

Lemma mod_pow2_succ (M k : Z) :
  0 <= k ->
  M mod 2 ^ (k + 1)
  = M mod 2 ^ k + 2 ^ k * (if Z.testbit M k then 1 else 0).
Proof.
  intros Hk. rewrite Z.pow_add_r, Z.pow_1_r by lia.
  rewrite Z.rem_mul_r by lia. f_equal. f_equal.
  rewrite Z.testbit_odd, Z.shiftr_div_pow2 by lia.
  apply Zmod_odd.
Qed.

(** [n] right shifts of a non-negative mantissa: the quotient by [2^n], the
    last bit shifted out, and whether anything non-zero went out before. *)
Lemma shr_iter (n : positive) (M : Z) :
  0 <= M ->
  SpecFloat.iter_pos shr_1 n (Build_shr_record M false false)
  = Build_shr_record (M / 2 ^ Z.pos n)
                     (Z.testbit M (Z.pos n - 1))
                     (negb (M mod 2 ^ (Z.pos n - 1) =? 0)).
Proof.
  intros HM. rewrite iter_pos_iter.
  induction n as [|n IH] using Pos.peano_ind.
  - cbn [Pos.iter]. rewrite shr_1_spec by exact HM.
    change (Z.pos 1 - 1) with 0. rewrite Z.pow_1_r, Z.pow_0_r, Z.mod_1_r.
    rewrite Z.bit0_odd. reflexivity.
  - rewrite Pos.iter_succ, IH.
    assert (Hq : 0 <= M / 2 ^ Z.pos n)
      by (apply Z.div_pos; [exact HM | apply Z.pow_pos_nonneg; lia]).
    rewrite shr_1_spec by exact Hq.
    rewrite Pos2Z.inj_succ.
    replace (Z.succ (Z.pos n) - 1) with (Z.pos n) by lia.
    f_equal.
    + rewrite Z.div_div by (try apply Z.pow_pos_nonneg; lia).
      rewrite Z.pow_succ_r by lia. f_equal. lia.
    + rewrite Z.testbit_odd, Z.shiftr_div_pow2 by lia. reflexivity.
    + replace (Z.pos n) with ((Z.pos n - 1) + 1) at 3 by lia.
      rewrite mod_pow2_succ by lia.
      pose proof (Z.mod_pos_bound M (2 ^ (Z.pos n - 1))
                    ltac:(apply Z.pow_pos_nonneg; lia)) as Hr.
      pose proof (Z.pow_pos_nonneg 2 (Z.pos n - 1) ltac:(lia) ltac:(lia)) as Hp.
      destruct (Z.testbit M (Z.pos n - 1));
        destruct (Z.eqb_spec (M mod 2 ^ (Z.pos n - 1)) 0) as [H0|H0];
        cbn [orb negb]; symmetry;
        [ apply negb_true_iff, Z.eqb_neq; lia
        | apply negb_true_iff, Z.eqb_neq; lia
        | apply negb_false_iff, Z.eqb_eq; lia
        | apply negb_true_iff, Z.eqb_neq; lia ].
Qed.

(** Rounding on the three bits kept by the shifts is rounding of the
    quotient to the nearest even. *)
Lemma round_shr (n : positive) (M : Z) :
  0 <= M ->
  let mrs := SpecFloat.iter_pos shr_1 n (Build_shr_record M false false) in
  round_nearest_even (shr_m mrs) (loc_of_shr_record mrs)
  = nearest_even M (Z.pos n).
Proof.
  intros HM mrs. subst mrs. rewrite shr_iter by exact HM.
  cbn [shr_m]. unfold nearest_even.
  assert (Hmod : M mod 2 ^ Z.pos n
                 = M mod 2 ^ (Z.pos n - 1)
                   + 2 ^ (Z.pos n - 1)
                     * (if Z.testbit M (Z.pos n - 1) then 1 else 0)).
  { rewrite <- mod_pow2_succ by lia. do 2 f_equal. lia. }
  assert (Hpow : 2 ^ Z.pos n = 2 ^ (Z.pos n - 1) * 2).
  { rewrite <- (Z.pow_1_r 2) at 3. rewrite <- Z.pow_add_r by lia.
    f_equal. lia. }
  rewrite Hmod. clear Hmod.
  pose proof (Z.mod_pos_bound M (2 ^ (Z.pos n - 1))
                ltac:(apply Z.pow_pos_nonneg; lia)) as Hr.
  set (R := M mod 2 ^ (Z.pos n - 1)) in *.
  set (P := 2 ^ (Z.pos n - 1)) in *.
  destruct (Z.testbit M (Z.pos n - 1));
    destruct (Z.eqb_spec R 0) as [H0|H0];
    cbn [negb loc_of_shr_record round_nearest_even].
  - replace (2 * (R + P * 1) ?= 2 ^ Z.pos n) with Eq
      by (symmetry; apply Z.compare_eq_iff; lia).
    reflexivity.
  - replace (2 * (R + P * 1) ?= 2 ^ Z.pos n) with Gt
      by (symmetry; apply Z.compare_gt_iff; lia).
    reflexivity.
  - replace (2 * (R + P * 0) ?= 2 ^ Z.pos n) with Lt
      by (symmetry; apply Z.compare_lt_iff; lia).
    reflexivity.
  - replace (2 * (R + P * 0) ?= 2 ^ Z.pos n) with Lt
      by (symmetry; apply Z.compare_lt_iff; lia).
    reflexivity.
Qed.

Lemma nearest_even_bounds (M n : Z) :
  M / 2 ^ n <= nearest_even M n <= M / 2 ^ n + 1.
Proof.
  unfold nearest_even.
  destruct (2 * (M mod 2 ^ n) ?= 2 ^ n); [destruct (Z.even _)| |]; lia.
Qed.

(** A multiple of [2^n] is its own rounding. *)
Lemma nearest_even_exact (M n : Z) :
  0 <= n -> nearest_even (M * 2 ^ n) n = M.
Proof.
  intros Hn. unfold nearest_even.
  pose proof (Z.pow_pos_nonneg 2 n ltac:(lia) Hn) as Hp.
  rewrite Z.mod_mul, Z.div_mul by lia.
  replace (2 * 0 ?= 2 ^ n) with Lt
    by (symmetry; apply Z.compare_lt_iff; lia).
  reflexivity.
Qed.

(** Rounding does not depend on how the number is written. *)
Lemma nearest_even_shift (M n k : Z) :
  0 <= n -> 0 <= k ->
  nearest_even (M * 2 ^ k) (n + k) = nearest_even M n.
Proof.
  intros Hn Hk. unfold nearest_even.
  pose proof (Z.pow_pos_nonneg 2 n ltac:(lia) Hn) as Hpn.
  pose proof (Z.pow_pos_nonneg 2 k ltac:(lia) Hk) as Hpk.
  rewrite Z.pow_add_r by lia.
  rewrite Z.div_mul_cancel_r by lia.
  rewrite Z.mul_mod_distr_r by lia.
  destruct (Z.compare_spec (2 * (M mod 2 ^ n)) (2 ^ n)) as [Hc|Hc|Hc].
  - replace (2 * (M mod 2 ^ n * 2 ^ k) ?= 2 ^ n * 2 ^ k) with Eq
      by (symmetry; apply Z.compare_eq_iff; nia).
    reflexivity.
  - replace (2 * (M mod 2 ^ n * 2 ^ k) ?= 2 ^ n * 2 ^ k) with Lt
      by (symmetry; apply Z.compare_lt_iff; nia).
    reflexivity.
  - replace (2 * (M mod 2 ^ n * 2 ^ k) ?= 2 ^ n * 2 ^ k) with Gt
      by (symmetry; apply Z.compare_gt_iff; nia).
    reflexivity.
Qed.
End ShiftRight.

Section Digits.

Lemma Zdigits2_bounds (M : Z) :
  0 < M -> 2 ^ (Zdigits2 M - 1) <= M < 2 ^ Zdigits2 M.
Proof.
  destruct M as [|p|p]; try lia. intros _. cbn [Zdigits2].
  apply digits2_pos_bounds.
Qed.

Lemma Zdigits2_pos (M : Z) : 0 < M -> 0 < Zdigits2 M.
Proof. destruct M as [|p|p]; cbn [Zdigits2]; lia. Qed.

Lemma Zdigits2_unique (M d : Z) :
  0 < M -> 2 ^ (d - 1) <= M < 2 ^ d -> Zdigits2 M = d.
Proof.
  destruct M as [|p|p]; try lia. intros _ Hb. cbn [Zdigits2].
  apply digits2_pos_unique; [exact Hb|].
  destruct (Z.lt_ge_cases 0 d) as [Hd|Hd]; [exact Hd|exfalso].
  assert (2 ^ d <= 2 ^ 0) by (apply Z.pow_le_mono_r; lia).
  change (2 ^ 0) with 1 in *. lia.
Qed.

Lemma Zdigits2_shift (M k : Z) :
  0 < M -> 0 <= k -> Zdigits2 (M * 2 ^ k) = Zdigits2 M + k.
Proof.
  intros HM Hk. pose proof (Zdigits2_bounds M HM) as [Hlo Hhi].
  pose proof (Zdigits2_pos M HM) as Hd.
  pose proof (Z.pow_pos_nonneg 2 k ltac:(lia) Hk) as Hp.
  apply Zdigits2_unique; [nia|].
  replace (Zdigits2 M + k - 1) with ((Zdigits2 M - 1) + k) by lia.
  rewrite !Z.pow_add_r by lia. nia.
Qed.

Lemma Zdigits2_le (M p : Z) :
  0 < M -> 0 <= p -> M < 2 ^ p -> Zdigits2 M <= p.
Proof.
  intros HM Hp Hlt. pose proof (Zdigits2_bounds M HM) as [Hlo _].
  pose proof (Zdigits2_pos M HM) as Hd.
  destruct (Z.le_gt_cases (Zdigits2 M) p) as [Hle|Hgt]; [exact Hle|exfalso].
  assert (2 ^ p <= 2 ^ (Zdigits2 M - 1)) by (apply Z.pow_le_mono_r; lia).
  lia.
Qed.

Lemma Zdigits2_ge (M p : Z) :
  0 < M -> 2 ^ (p - 1) <= M -> p <= Zdigits2 M.
Proof.
  intros HM Hge. pose proof (Zdigits2_bounds M HM) as [_ Hhi].
  pose proof (Zdigits2_pos M HM) as Hd.
  destruct (Z.le_gt_cases p (Zdigits2 M)) as [Hle|Hgt]; [exact Hle|exfalso].
  assert (2 ^ Zdigits2 M <= 2 ^ (p - 1)) by (apply Z.pow_le_mono_r; lia).
  lia.
Qed.
End Digits.

Lemma fexp_spec (prec emax k : Z) :
  fexp prec emax k = Z.max (k - prec) (emin prec emax).
Proof. reflexivity. Qed.

(** The mantissa brought to the exponent of its binade: between
    [2^(prec-1)] (when the binade is above the smallest) and [2^prec]. *)
Lemma scaled_bounds (prec emax M e : Z) :
  0 < prec -> 0 < M ->
  let E := fexp prec emax (Zdigits2 M + e) in
  0 <= scaled M e E <= 2 ^ prec /\
  (emin prec emax < E -> 2 ^ (prec - 1) <= scaled M e E).
Proof.
  intros Hprec HM E. subst E. rewrite fexp_spec.
  set (emin := emin prec emax).
  pose proof (Zdigits2_bounds M HM) as [Hlo Hhi].
  pose proof (Zdigits2_pos M HM) as Hd.
  set (d := Zdigits2 M) in *. set (E := Z.max (d + e - prec) emin).
  unfold scaled. destruct (Z.leb_spec E e) as [HEe|HEe].
  - (* no rounding *)
    pose proof (Z.pow_pos_nonneg 2 (e - E) ltac:(lia) ltac:(lia)) as Hp.
    split; [split; [nia|]|].
    + assert (M * 2 ^ (e - E) < 2 ^ (d + (e - E))).
      { rewrite Z.pow_add_r by lia. nia. }
      assert (2 ^ (d + (e - E)) <= 2 ^ prec)
        by (apply Z.pow_le_mono_r; lia).
      lia.
    + intros Hn.
      assert (2 ^ (prec - 1) = 2 ^ (d - 1) * 2 ^ (e - E)) as ->.
      { rewrite <- Z.pow_add_r by lia. f_equal. lia. }
      nia.
  - (* rounding of the quotient by 2^n *)
    set (n := E - e). assert (Hn : 0 < n) by (subst n; lia).
    pose proof (Z.pow_pos_nonneg 2 n ltac:(lia) ltac:(lia)) as Hp.
    pose proof (nearest_even_bounds M n) as [Hq1 Hq2].
    assert (Hq0 : 0 <= M / 2 ^ n) by (apply Z.div_pos; lia).
    assert (Hqp : M / 2 ^ n < 2 ^ prec).
    { apply Z.div_lt_upper_bound; [lia|].
      rewrite <- Z.pow_add_r by lia.
      assert (2 ^ d <= 2 ^ (n + prec)) by (apply Z.pow_le_mono_r; lia).
      lia. }
    split; [lia|]. intros Hmin.
    assert (2 ^ (prec - 1) <= M / 2 ^ n); [|lia].
    apply Z.div_le_lower_bound; [lia|].
    rewrite <- Z.pow_add_r by lia.
    replace (n + (prec - 1)) with (d - 1) by lia. exact Hlo.
Qed.

(** ** The rounding of [SpecFloat], against the rounding of dyadic numbers *)

Lemma dy_round_pos (prec emax : Z) (M : positive) (e : Z) :
  let E := fexp prec emax (Z.pos (digits2_pos M) + e) in
  let m := scaled (Z.pos M) e E in
  dy_round prec emax (Dy (Z.pos M) e)
  = if m =? 0 then Dy 0 0
    else if m =? 2 ^ prec then Dy (2 ^ (prec - 1)) (E + 1)
    else Dy m E.
Proof.
  intros E m. unfold dy_round. cbn [mant expo Z.abs Z.sgn Zdigits2].
  fold E. fold m. rewrite !Z.mul_1_l. reflexivity.
Qed.

(** The first of the two shifts of [binary_round_aux], with the rounding
    that follows it. *)
Lemma shr_fexp_round (prec emax : Z) (M : positive) (e : Z) :
  let E := fexp prec emax (Z.pos (digits2_pos M) + e) in
  e <= E ->
  let mrs_e := shr_fexp prec emax (Z.pos M) e loc_Exact in
  round_nearest_even (shr_m (fst mrs_e)) (loc_of_shr_record (fst mrs_e))
    = scaled (Z.pos M) e E /\
  snd mrs_e = E.
Proof.
  intros E He mrs_e. subst mrs_e. unfold shr_fexp.
  cbn [Zdigits2 shr_record_of_loc]. fold E. unfold shr, scaled.
  destruct (E - e) as [|p|p] eqn:Hn; try lia.
  - assert (E = e) as -> by lia. cbn [fst snd shr_m loc_of_shr_record
                                       round_nearest_even].
    rewrite Z.leb_refl, Z.sub_diag. split; [lia | reflexivity].
  - cbn [fst snd]. destruct (Z.leb_spec E e) as [Hle|Hgt]; [lia|].
    split; [|lia]. apply round_shr. lia.
Qed.

(** The second shift: nothing moves, unless the rounding carried the
    mantissa to [2^prec]. *)
Lemma shr_fexp_again (prec emax : Z) (m E : Z) :
  0 < prec ->
  emin prec emax <= E ->
  0 <= m <= 2 ^ prec ->
  let mrs_e := shr_fexp prec emax m E loc_Exact in
  shr_m (fst mrs_e) = (if m =? 2 ^ prec then 2 ^ (prec - 1) else m) /\
  snd mrs_e = (if m =? 2 ^ prec then E + 1 else E).
Proof.
  intros Hprec HE [Hm0 Hmp] mrs_e. subst mrs_e.
  unfold shr_fexp. cbn [shr_record_of_loc]. rewrite fexp_spec.
  pose proof (Z.pow_pos_nonneg 2 prec ltac:(lia) ltac:(lia)) as Hp.
  destruct (Z.eqb_spec m (2 ^ prec)) as [->|Hne].
  - assert (Hd : Zdigits2 (2 ^ prec) = prec + 1).
    { apply Zdigits2_unique; [lia|].
      replace (prec + 1 - 1) with prec by lia.
      rewrite Z.pow_add_r, Z.pow_1_r by lia. lia. }
    rewrite Hd.
    replace (Z.max (prec + 1 + E - prec) (emin prec emax) - E) with 1 by lia.
    unfold shr. rewrite (shr_iter 1) by lia. cbn [fst snd shr_m].
    split; [|reflexivity].
    replace (2 ^ prec) with (2 ^ (prec - 1) * 2 ^ 1)
      by (rewrite <- Z.pow_add_r by lia; f_equal; lia).
    apply Z.div_mul. discriminate.
  - assert (Hn : Z.max (Zdigits2 m + E - prec) (emin prec emax) - E <= 0).
    { destruct (Z.eq_dec m 0) as [->|Hm]; [cbn [Zdigits2]; lia|].
      pose proof (Zdigits2_le m prec ltac:(lia) ltac:(lia) ltac:(lia)). lia. }
    unfold shr.
    destruct (Z.max (Zdigits2 m + E - prec) (emin prec emax) - E)
      as [|p|p]; try lia; split; reflexivity.
Qed.

(** [binary_round_aux] on a positive mantissa that needs no left shift
    returns the rounding of the number, as long as that is in range. *)
Lemma binary_round_aux_spec (prec emax : Z) (s : bool) (M : positive) (e : Z) :
  0 < prec ->
  e <= fexp prec emax (Z.pos (digits2_pos M) + e) ->
  let r := dy_round prec emax (Dy (Z.pos M) e) in
  dy_fits prec emax r = true ->
  binary_round_aux prec emax s (Z.pos M) e loc_Exact = sf_of_dy s r.
Proof.
  intros Hprec He r Hfit. subst r. rewrite dy_round_pos in *.
  pose proof (scaled_bounds prec emax (Z.pos M) e Hprec ltac:(lia))
    as [Hb _]. cbn [Zdigits2] in Hb.
  pose proof (shr_fexp_round prec emax M e He) as [Hr1 He1].
  set (E := fexp prec emax (Z.pos (digits2_pos M) + e)) in *.
  set (m := scaled (Z.pos M) e E) in *.
  assert (HE : emin prec emax <= E) by (subst E; rewrite fexp_spec; lia).
  pose proof (shr_fexp_again prec emax m E Hprec HE Hb) as [Hr2 He2].
  clearbody m E. unfold binary_round_aux.
  destruct (shr_fexp prec emax (Z.pos M) e loc_Exact) as [mrs' e'].
  cbn [fst snd] in Hr1, He1. rewrite Hr1, He1.
  destruct (shr_fexp prec emax m E loc_Exact) as [mrs'' e''].
  cbn [fst snd] in Hr2, He2. rewrite Hr2, He2.
  pose proof (Z.pow_pos_nonneg 2 (prec - 1) ltac:(lia) ltac:(lia)) as Hp.
  unfold sf_of_dy, dy_fits in *.
  destruct (Z.eqb_spec m 0) as [Hm0|Hm0].
  - rewrite Hm0. destruct (Z.eqb_spec 0 (2 ^ prec)); reflexivity || lia.
  - destruct (Z.eqb_spec m (2 ^ prec)) as [Hc|Hc]; cbn [mant expo] in *.
    + destruct (2 ^ (prec - 1)) as [|p|p]; try lia.
      rewrite Hfit. reflexivity.
    + destruct m as [|p|p]; try lia.
      rewrite Hfit. reflexivity.
Qed.

(** ** Rounding does not depend on how a number is written, and rounds
    rounded numbers to themselves *)

Lemma nearest_even_0 (n : Z) : 0 < n -> nearest_even 0 n = 0.
Proof.
  intros Hn. unfold nearest_even.
  pose proof (Z.pow_pos_nonneg 2 n ltac:(lia) ltac:(lia)) as Hp.
  rewrite Z.mod_0_l, Z.div_0_l by lia.
  replace (2 * 0 ?= 2 ^ n) with Lt
    by (symmetry; apply Z.compare_lt_iff; lia).
  reflexivity.
Qed.

Lemma scaled_0 (e E : Z) : scaled 0 e E = 0.
Proof.
  unfold scaled. destruct (Z.leb_spec E e); [lia|].
  apply nearest_even_0. lia.
Qed.

Lemma dy_round_0 (prec emax e : Z) : dy_round prec emax (Dy 0 e) = Dy 0 0.
Proof.
  unfold dy_round. cbn [mant expo Z.abs]. rewrite scaled_0. reflexivity.
Qed.

Lemma scaled_shift (M e E k : Z) :
  0 <= k -> scaled (M * 2 ^ k) (e - k) E = scaled M e E.
Proof.
  intros Hk. unfold scaled.
  destruct (Z.leb_spec E (e - k)) as [H1|H1];
    destruct (Z.leb_spec E e) as [H2|H2]; try lia.
  - rewrite <- Z.mul_assoc, <- Z.pow_add_r by lia. do 2 f_equal. lia.
  - replace (M * 2 ^ k) with (M * 2 ^ (e - E) * 2 ^ (E - (e - k))).
    + apply nearest_even_exact. lia.
    + rewrite <- Z.mul_assoc, <- Z.pow_add_r by lia. do 2 f_equal. lia.
  - replace (E - (e - k)) with ((E - e) + k) by lia.
    apply nearest_even_shift; lia.
Qed.

Lemma dy_round_shift (prec emax k : Z) (x : dyadic) :
  0 <= k -> dy_round prec emax (dy_shift k x) = dy_round prec emax x.
Proof.
  intros Hk. destruct x as [M e]. unfold dy_shift. cbn [mant expo].
  destruct (Z.eq_dec M 0) as [->|HM].
  - rewrite Z.mul_0_l, !dy_round_0. reflexivity.
  - pose proof (Z.pow_pos_nonneg 2 k ltac:(lia) Hk) as Hp.
    unfold dy_round. cbn [mant expo].
    rewrite Z.abs_mul, (Z.abs_eq (2 ^ k)) by lia.
    rewrite Zdigits2_shift by lia.
    replace (Zdigits2 (Z.abs M) + k + (e - k)) with (Zdigits2 (Z.abs M) + e)
      by lia.
    rewrite scaled_shift by lia.
    rewrite Z.sgn_mul, (Z.sgn_pos (2 ^ k)), Z.mul_1_r by lia.
    reflexivity.
Qed.

(** A number already on the grid of its binade is its own rounding. *)
Lemma dy_round_canonical (prec emax M e : Z) :
  0 < prec -> M <> 0 ->
  fexp prec emax (Zdigits2 (Z.abs M) + e) = e ->
  dy_round prec emax (Dy M e) = Dy M e.
Proof.
  intros Hprec HM Hc. unfold dy_round. cbn [mant expo]. rewrite Hc.
  unfold scaled. rewrite Z.leb_refl, Z.sub_diag, Z.pow_0_r, Z.mul_1_r.
  rewrite fexp_spec in Hc.
  pose proof (Zdigits2_bounds (Z.abs M) ltac:(lia)) as [_ Hhi].
  assert (Z.abs M < 2 ^ prec).
  { assert (2 ^ Zdigits2 (Z.abs M) <= 2 ^ prec)
      by (apply Z.pow_le_mono_r; lia). lia. }
  destruct (Z.eqb_spec (Z.abs M) 0); [lia|].
  destruct (Z.eqb_spec (Z.abs M) (2 ^ prec)); [lia|].
  f_equal. rewrite Z.mul_comm. apply Z.abs_sgn.
Qed.

Lemma dy_round_idem (prec emax : Z) (x : dyadic) :
  0 < prec ->
  dy_round prec emax (dy_round prec emax x) = dy_round prec emax x.
Proof.
  intros Hprec. destruct x as [M e].
  destruct (Z.eq_dec M 0) as [->|HM]; [rewrite !dy_round_0; reflexivity|].
  remember (dy_round prec emax (Dy M e)) as r eqn:Hr.
  unfold dy_round in Hr. cbn [mant expo] in Hr.
  pose proof (scaled_bounds prec emax (Z.abs M) e Hprec ltac:(lia))
    as [[Hm0 Hmp] Hmlo]. cbn zeta in *.
  set (E := fexp prec emax (Zdigits2 (Z.abs M) + e)) in *.
  set (m := scaled (Z.abs M) e E) in *.
  assert (HE : emin prec emax <= E) by (subst E; rewrite fexp_spec; lia).
  clearbody m E.
  pose proof (Z.pow_pos_nonneg 2 (prec - 1) ltac:(lia) ltac:(lia)) as Hp1.
  assert (Hsg : Z.sgn M = 1 \/ Z.sgn M = -1) by lia.
  destruct (Z.eqb_spec m 0) as [Hz|Hz]; [subst r; apply dy_round_0|].
  destruct (Z.eqb_spec m (2 ^ prec)) as [Hc|Hc]; subst r.
  - apply dy_round_canonical; [exact Hprec | lia |].
    replace (Z.abs (Z.sgn M * 2 ^ (prec - 1))) with (2 ^ (prec - 1)) by lia.
    assert (Zdigits2 (2 ^ (prec - 1)) = prec) as ->.
    { apply Zdigits2_unique; [lia|]. split; [lia|].
      apply Z.pow_lt_mono_r; lia. }
    rewrite fexp_spec. lia.
  - apply dy_round_canonical; [exact Hprec | lia |].
    replace (Z.abs (Z.sgn M * m)) with m by lia.
    rewrite fexp_spec.
    pose proof (Zdigits2_le m prec ltac:(lia) ltac:(lia) ltac:(lia)) as Hle.
    destruct (Z.eq_dec E (emin prec emax)) as [HEm|HEm]; [lia|].
    pose proof (Zdigits2_ge m prec ltac:(lia) (Hmlo ltac:(lia))). lia.
Qed.

(** A valid datum of the format denotes a number that is its own
    rounding. *)
Lemma dy_round_valid (prec emax : Z) (x : spec_float) :
  0 < prec -> valid_binary prec emax x = true ->
  dy_round prec emax (dy_of x) = dy_of x.
Proof.
  intros Hprec Hv. destruct x as [s|s| |s m e]; cbn [dy_of];
    try apply dy_round_0.
  cbn [valid_binary] in Hv. unfold bounded, canonical_mantissa in Hv.
  apply andb_true_iff in Hv as [Hc _]. apply Z.eqb_eq in Hc.
  apply dy_round_canonical; [exact Hprec | destruct s; cbn; lia |].
  replace (Z.abs (cond_Zopp s (Z.pos m))) with (Z.pos m)
    by (destruct s; cbn; lia).
  exact Hc.
Qed.

Lemma dy_round_neg (prec emax : Z) (s : bool) (M : positive) (e : Z) :
  dy_round prec emax (Dy (cond_Zopp s (Z.pos M)) e)
  = Dy (cond_Zopp s (mant (dy_round prec emax (Dy (Z.pos M) e))))
       (expo (dy_round prec emax (Dy (Z.pos M) e))).
Proof.
  unfold dy_round. cbn [mant expo].
  destruct s;
    [change (cond_Zopp true (Z.pos M)) with (Z.neg M)
    |change (cond_Zopp false (Z.pos M)) with (Z.pos M)];
    change (Z.abs (Z.neg M)) with (Z.pos M);
    change (Z.abs (Z.pos M)) with (Z.pos M);
    change (Z.sgn (Z.neg M)) with (-1);
    change (Z.sgn (Z.pos M)) with 1;
    destruct (_ =? 0); try reflexivity;
    destruct (_ =? 2 ^ prec); cbn [mant expo cond_Zopp]; f_equal; lia.
Qed.

(** Reading back the datum a rounded number is written as. *)
Lemma dy_of_sf_of_dy (prec emax : Z) (s : bool) (M : positive) (e : Z) :
  0 < prec ->
  let r := dy_round prec emax (Dy (Z.pos M) e) in
  dy_of (sf_of_dy s r) = dy_round prec emax (Dy (cond_Zopp s (Z.pos M)) e) /\
  is_finite (sf_of_dy s r) = true.
Proof.
  intros Hprec r. rewrite dy_round_neg. fold r.
  assert (Hr : 0 <= mant r /\ (mant r = 0 -> expo r = 0)).
  { subst r. rewrite dy_round_pos.
    pose proof (scaled_bounds prec emax (Z.pos M) e Hprec ltac:(lia))
      as [[Hm0 _] _]. cbn [Zdigits2] in Hm0.
    pose proof (Z.pow_pos_nonneg 2 (prec - 1) ltac:(lia) ltac:(lia)).
    set (m := scaled _ _ _) in *.
    destruct (Z.eqb_spec m 0); [cbn; lia|].
    destruct (Z.eqb_spec m (2 ^ prec)); cbn [mant expo]; lia. }
  clearbody r. destruct r as [m E]. cbn [mant expo] in *. unfold sf_of_dy.
  cbn [mant expo]. destruct Hr as [Hm HE].
  destruct m as [|p|p]; try lia.
  - rewrite HE by reflexivity. destruct s; split; reflexivity.
  - split; reflexivity.
Qed.

(** [binary_round], which first shifts left when the mantissa is short. *)
Lemma binary_round_spec (prec emax : Z) (s : bool) (M : positive) (e : Z) :
  0 < prec ->
  let r := dy_round prec emax (Dy (Z.pos M) e) in
  dy_fits prec emax r = true ->
  binary_round prec emax s M e = sf_of_dy s r.
Proof.
  intros Hprec r Hfit. unfold binary_round, shl_align.
  set (E := fexp prec emax (Z.pos (digits2_pos M) + e)).
  destruct (E - e) as [|k|k] eqn:Hk.
  - apply binary_round_aux_spec; [exact Hprec | fold E; lia | exact Hfit].
  - apply binary_round_aux_spec; [exact Hprec | fold E; lia | exact Hfit].
  - assert (Hsh : Dy (Z.pos (Pos.iter xO M k)) E
                  = dy_shift (Z.pos k) (Dy (Z.pos M) e)).
    { unfold dy_shift. cbn [mant expo]. rewrite shl_value. f_equal. lia. }
    assert (Hr : dy_round prec emax (Dy (Z.pos (Pos.iter xO M k)) E) = r).
    { rewrite Hsh. apply dy_round_shift. lia. }
    rewrite <- Hr. apply binary_round_aux_spec; [exact Hprec | |].
    + rewrite digits2_pos_shl, Pos2Z.inj_add.
      replace (Z.pos (digits2_pos M) + Z.pos k + E)
        with (Z.pos (digits2_pos M) + e) by lia.
      fold E. lia.
    + rewrite Hr. exact Hfit.
Qed.

(** ** What the operations of a format compute *)

Lemma dy_fits_neg (prec emax : Z) (s : bool) (M : positive) (e : Z) :
  dy_fits prec emax (dy_round prec emax (Dy (cond_Zopp s (Z.pos M)) e))
  = dy_fits prec emax (dy_round prec emax (Dy (Z.pos M) e)).
Proof. rewrite dy_round_neg. reflexivity. Qed.

Lemma cond_Zopp_mul (sx sy : bool) (a b : Z) :
  cond_Zopp sx a * cond_Zopp sy b = cond_Zopp (xorb sx sy) (a * b).
Proof. destruct sx, sy; cbn; lia. Qed.

(** The product of two canonical mantissas needs no left shift. *)
Lemma product_needs_no_shl (prec emax : Z) (mx my : positive) (ex ey : Z) :
  0 < prec -> prec < emax ->
  bounded prec emax mx ex = true ->
  bounded prec emax my ey = true ->
  ex + ey <= fexp prec emax (Z.pos (digits2_pos (mx * my)) + (ex + ey)).
Proof.
  intros Hprec Hemax Hx Hy. unfold bounded, canonical_mantissa in *.
  apply andb_true_iff in Hx as [Hx _]. apply andb_true_iff in Hy as [Hy _].
  apply Z.eqb_eq in Hx, Hy. rewrite fexp_spec in *.
  pose proof (digits2_pos_mul mx my) as Hd.
  unfold emin in *. lia.
Qed.

(** The product of two finite data of a format is the rounding of the
    exact product, as long as that is in range. *)
Lemma SFmul_spec (prec emax : Z) (x y : spec_float) :
  0 < prec -> prec < emax ->
  valid_binary prec emax x = true -> valid_binary prec emax y = true ->
  is_finite x = true -> is_finite y = true ->
  dy_fits prec emax (dy_round prec emax (dy_mul (dy_of x) (dy_of y))) = true ->
  is_finite (SFmul prec emax x y) = true /\
  dy_of (SFmul prec emax x y)
  = dy_round prec emax (dy_mul (dy_of x) (dy_of y)).
Proof.
  intros Hprec Hemax Hvx Hvy Hfx Hfy Hfit.
  destruct x as [sx|sx| |sx mx ex]; try discriminate Hfx;
    destruct y as [sy|sy| |sy my ey]; try discriminate Hfy;
    cbn [dy_of] in *; unfold dy_mul in *; cbn [mant expo] in *.
  - cbn. rewrite dy_round_0. split; reflexivity.
  - cbn [SFmul is_finite dy_of]. rewrite dy_round_0. split; reflexivity.
  - cbn [SFmul is_finite dy_of]. rewrite Z.mul_0_r, dy_round_0.
    split; reflexivity.
  - cbn [valid_binary] in Hvx, Hvy. cbn [SFmul].
    rewrite cond_Zopp_mul in *. rewrite <- Pos2Z.inj_mul in *.
    rewrite dy_fits_neg in Hfit.
    rewrite binary_round_aux_spec;
      [ | exact Hprec
        | apply product_needs_no_shl; assumption
        | exact Hfit ].
    destruct (dy_of_sf_of_dy prec emax (xorb sx sy) (mx * my) (ex + ey) Hprec)
      as [Hd Hf].
    split; [exact Hf | exact Hd].
Qed.

Lemma shl_align_fst (m : positive) (e ez : Z) :
  ez <= e -> Z.pos (fst (shl_align m e ez)) = Z.pos m * 2 ^ (e - ez).
Proof.
  intros He. unfold shl_align.
  destruct (ez - e) as [|k|k] eqn:Hk; cbn [fst]; try lia.
  - replace (e - ez) with 0 by lia. lia.
  - rewrite shl_value. do 2 f_equal. lia.
Qed.

Lemma cond_Zopp_scale (s : bool) (a b : Z) :
  cond_Zopp s a * b = cond_Zopp s (a * b).
Proof. destruct s; cbn; lia. Qed.

Lemma binary_normalize_spec (prec emax : Z) (S e : Z) :
  0 < prec ->
  dy_fits prec emax (dy_round prec emax (Dy S e)) = true ->
  is_finite (binary_normalize prec emax S e false) = true /\
  dy_of (binary_normalize prec emax S e false) = dy_round prec emax (Dy S e).
Proof.
  intros Hprec Hfit. destruct S as [|p|p]; cbn [binary_normalize].
  - rewrite dy_round_0. split; reflexivity.
  - change (Z.pos p) with (cond_Zopp false (Z.pos p)) in Hfit.
    rewrite dy_fits_neg in Hfit.
    rewrite binary_round_spec by assumption.
    destruct (dy_of_sf_of_dy prec emax false p e Hprec) as [Hd Hf].
    split; [exact Hf | exact Hd].
  - change (Z.neg p) with (cond_Zopp true (Z.pos p)) in Hfit.
    rewrite dy_fits_neg in Hfit.
    rewrite binary_round_spec by assumption.
    destruct (dy_of_sf_of_dy prec emax true p e Hprec) as [Hd Hf].
    split; [exact Hf | exact Hd].
Qed.

Lemma dy_add_0_l (y : dyadic) :
  dy_add (Dy 0 0) y = dy_shift (expo y - Z.min 0 (expo y)) y.
Proof.
  destruct y as [m e]. unfold dy_add, dy_shift. cbn [mant expo].
  f_equal; lia.
Qed.

Lemma dy_add_0_r (x : dyadic) :
  dy_add x (Dy 0 0) = dy_shift (expo x - Z.min (expo x) 0) x.
Proof.
  destruct x as [m e]. unfold dy_add, dy_shift. cbn [mant expo].
  f_equal; lia.
Qed.

(** The sum of two finite data is the rounding of the exact sum, as long
    as that is in range. *)
Lemma SFadd_spec (prec emax : Z) (x y : spec_float) :
  0 < prec ->
  is_finite x = true -> is_finite y = true ->
  dy_round prec emax (dy_of x) = dy_of x ->
  dy_round prec emax (dy_of y) = dy_of y ->
  dy_fits prec emax (dy_round prec emax (dy_add (dy_of x) (dy_of y))) = true ->
  is_finite (SFadd prec emax x y) = true /\
  dy_of (SFadd prec emax x y)
  = dy_round prec emax (dy_add (dy_of x) (dy_of y)).
Proof.
  intros Hprec Hfx Hfy Hcx Hcy Hfit.
  destruct x as [sx|sx| |sx mx ex]; try discriminate Hfx;
    destruct y as [sy|sy| |sy my ey]; try discriminate Hfy.
  - cbn [dy_of]. unfold dy_add. cbn [mant expo].
    rewrite !Z.mul_0_l, Z.add_0_l, dy_round_0.
    destruct sx, sy; split; reflexivity.
  - cbn [SFadd]. split; [reflexivity|].
    change (dy_of (S754_zero sx)) with (Dy 0 0).
    rewrite dy_add_0_l, dy_round_shift by lia. symmetry. exact Hcy.
  - cbn [SFadd]. split; [reflexivity|].
    change (dy_of (S754_zero sy)) with (Dy 0 0).
    rewrite dy_add_0_r, dy_round_shift by lia. symmetry. exact Hcx.
  - cbn [SFadd]. cbn [dy_of] in Hfit |- *. unfold dy_add in *.
    cbn [mant expo] in *.
    rewrite !cond_Zopp_scale, <- !shl_align_fst in * by lia.
    apply binary_normalize_spec; assumption.
Qed.

(** Conversion to a format is rounding. *)
Lemma convert_spec (prec emax : Z) (x : spec_float) :
  0 < prec ->
  is_finite x = true ->
  dy_fits prec emax (dy_round prec emax (dy_of x)) = true ->
  is_finite (IEEE.convert prec emax x) = true /\
  dy_of (IEEE.convert prec emax x) = dy_round prec emax (dy_of x).
Proof.
  intros Hprec Hfx Hfit.
  destruct x as [s|s| |s m e]; try discriminate Hfx; cbn [IEEE.convert dy_of].
  - rewrite dy_round_0. split; reflexivity.
  - cbn [dy_of] in Hfit. rewrite dy_fits_neg in Hfit.
    rewrite binary_round_spec by assumption.
    destruct (dy_of_sf_of_dy prec emax s m e Hprec) as [Hd Hf].
    split; [exact Hf | exact Hd].
Qed.

(** ** The same number written twice *)

Lemma aligned_lower (x : dyadic) (e0 e1 : Z) :
  e0 <= e1 -> e1 <= expo x -> aligned x e0 = aligned x e1 * 2 ^ (e1 - e0).
Proof.
  intros H0 H1. unfold aligned.
  rewrite <- Z.mul_assoc, <- Z.pow_add_r by lia. do 2 f_equal. lia.
Qed.

Lemma dy_same_at (x y : dyadic) (e0 : Z) :
  dy_same x y -> e0 <= expo x -> e0 <= expo y ->
  aligned x e0 = aligned y e0.
Proof.
  intros (e1 & Hx & Hy & Heq) H0x H0y.
  set (e2 := Z.min e0 e1).
  assert (H2 : aligned x e2 = aligned y e2).
  { rewrite (aligned_lower x e2 e1), (aligned_lower y e2 e1) by lia.
    rewrite Heq. reflexivity. }
  rewrite (aligned_lower x e2 e0), (aligned_lower y e2 e0) in H2 by lia.
  pose proof (Z.pow_pos_nonneg 2 (e0 - e2) ltac:(lia) ltac:(lia)).
  nia.
Qed.

Lemma dy_same_refl (x : dyadic) : dy_same x x.
Proof. exists (expo x). repeat split; lia. Qed.

Lemma dy_same_sym (x y : dyadic) : dy_same x y -> dy_same y x.
Proof. intros (e0 & Hx & Hy & Heq). exists e0. repeat split; auto. Qed.

Lemma dy_same_trans (x y z : dyadic) :
  dy_same x y -> dy_same y z -> dy_same x z.
Proof.
  intros Hxy Hyz.
  set (e0 := Z.min (expo x) (Z.min (expo y) (expo z))).
  exists e0. split; [lia|]. split; [lia|].
  rewrite (dy_same_at x y e0 Hxy), (dy_same_at y z e0 Hyz) by lia.
  reflexivity.
Qed.

Lemma dy_same_shift (k : Z) (x : dyadic) : 0 <= k -> dy_same (dy_shift k x) x.
Proof.
  intros Hk. exists (expo x - k). unfold dy_shift, aligned. cbn [mant expo].
  split; [lia|]. split; [lia|].
  rewrite Z.sub_diag, Z.pow_0_r, Z.mul_1_r. do 2 f_equal. lia.
Qed.

Lemma dy_same_zero (e e' : Z) : dy_same (Dy 0 e) (Dy 0 e').
Proof.
  exists (Z.min e e'). unfold aligned. cbn [mant expo].
  split; [lia|]. split; [lia|]. lia.
Qed.

(** Rounding, sums and products do not depend on how their arguments are
    written. *)
Lemma dy_round_same (prec emax : Z) (x y : dyadic) :
  dy_same x y -> dy_round prec emax x = dy_round prec emax y.
Proof.
  intros (e0 & Hx & Hy & Heq).
  rewrite <- (dy_round_shift prec emax (expo x - e0) x) by lia.
  rewrite <- (dy_round_shift prec emax (expo y - e0) y) by lia.
  unfold dy_shift. unfold aligned in Heq. rewrite Heq.
  do 2 f_equal. lia.
Qed.

Lemma aligned_add (x y : dyadic) (e0 : Z) :
  e0 <= expo x -> e0 <= expo y ->
  aligned (dy_add x y) e0 = aligned x e0 + aligned y e0.
Proof.
  intros Hx Hy. unfold aligned, dy_add. cbn [mant expo].
  rewrite Z.mul_add_distr_r, <- !Z.mul_assoc, <- !Z.pow_add_r by lia.
  f_equal; do 2 f_equal; lia.
Qed.

Lemma dy_add_same (x1 x2 y1 y2 : dyadic) :
  dy_same x1 x2 -> dy_same y1 y2 -> dy_same (dy_add x1 y1) (dy_add x2 y2).
Proof.
  intros Hx Hy.
  set (e0 := Z.min (Z.min (expo x1) (expo x2)) (Z.min (expo y1) (expo y2))).
  exists e0. unfold dy_add at 1 2. cbn [expo].
  split; [lia|]. split; [lia|].
  rewrite !aligned_add by lia.
  rewrite (dy_same_at x1 x2 e0 Hx), (dy_same_at y1 y2 e0 Hy) by lia.
  reflexivity.
Qed.

Lemma dy_mul_same (x1 x2 y1 y2 : dyadic) :
  dy_same x1 x2 -> dy_same y1 y2 -> dy_same (dy_mul x1 y1) (dy_mul x2 y2).
Proof.
  intros Hx Hy.
  set (ex := Z.min (expo x1) (expo x2)).
  set (ey := Z.min (expo y1) (expo y2)).
  pose proof (dy_same_at x1 x2 ex Hx ltac:(lia) ltac:(lia)) as Hax.
  pose proof (dy_same_at y1 y2 ey Hy ltac:(lia) ltac:(lia)) as Hay.
  exists (ex + ey). unfold dy_mul at 1 2. cbn [expo].
  split; [lia|]. split; [lia|].
  unfold aligned, dy_mul in *. cbn [mant expo].
  replace (expo x1 + expo y1 - (ex + ey))
    with ((expo x1 - ex) + (expo y1 - ey)) by lia.
  replace (expo x2 + expo y2 - (ex + ey))
    with ((expo x2 - ex) + (expo y2 - ey)) by lia.
  rewrite !Z.pow_add_r by lia.
  transitivity (mant x1 * 2 ^ (expo x1 - ex) * (mant y1 * 2 ^ (expo y1 - ey)));
    [ring|].
  rewrite Hax, Hay. ring.
Qed.

(** A number that needs no rounding is written differently, no more. *)
Lemma dy_round_exact (prec emax : Z) (x : dyadic) :
  0 < prec ->
  fexp prec emax (Zdigits2 (Z.abs (mant x)) + expo x) <= expo x ->
  dy_same (dy_round prec emax x) x /\
  (mant x <> 0 ->
   expo (dy_round prec emax x)
   = fexp prec emax (Zdigits2 (Z.abs (mant x)) + expo x)).
Proof.
  intros Hprec HE. destruct x as [M e]. cbn [mant expo] in *.
  destruct (Z.eq_dec M 0) as [->|HM].
  - rewrite dy_round_0. split; [apply dy_same_zero | lia].
  - pose proof (scaled_bounds prec emax (Z.abs M) e Hprec ltac:(lia))
      as [[Hm0 Hmp] _]. cbn zeta in *.
    unfold dy_round. cbn [mant expo].
    set (E := fexp prec emax (Zdigits2 (Z.abs M) + e)) in *.
    assert (Hs : scaled (Z.abs M) e E = Z.abs M * 2 ^ (e - E)).
    { unfold scaled. destruct (Z.leb_spec E e); [reflexivity | lia]. }
    assert (HEge : Zdigits2 (Z.abs M) + e - prec <= E)
      by (subst E; rewrite fexp_spec; lia).
    pose proof (Zdigits2_pos (Z.abs M) ltac:(lia)) as Hd.
    rewrite Hs in *. clearbody E.
    pose proof (Z.pow_pos_nonneg 2 (e - E) ltac:(lia) ltac:(lia)) as Hp.
    pose proof (Zdigits2_bounds (Z.abs M) ltac:(lia)) as [_ Hhi].
    destruct (Z.eqb_spec (Z.abs M * 2 ^ (e - E)) 0) as [H0|H0]; [nia|].
    destruct (Z.eqb_spec (Z.abs M * 2 ^ (e - E)) (2 ^ prec)) as [Hc|Hc].
    + exfalso.
      assert (Z.abs M * 2 ^ (e - E) < 2 ^ (Zdigits2 (Z.abs M) + (e - E))).
      { rewrite Z.pow_add_r by lia. nia. }
      assert (2 ^ (Zdigits2 (Z.abs M) + (e - E)) <= 2 ^ prec)
        by (apply Z.pow_le_mono_r; lia).
      lia.
    + split; [|reflexivity].
      replace (Dy (Z.sgn M * (Z.abs M * 2 ^ (e - E))) E)
        with (dy_shift (e - E) (Dy M e)).
      * apply dy_same_shift. lia.
      * unfold dy_shift. cbn [mant expo]. f_equal; [|lia].
        rewrite Z.mul_assoc, (Z.mul_comm (Z.sgn M)), Z.abs_sgn. reflexivity.
Qed.

(** ** The three multiply-add steps on numbers *)

(** Both products and the sum in one format, each rounded in it. *)
Lemma mam_in_one_format (prec emax : Z) (a b c d : spec_float) :
  0 < prec -> prec < emax ->
  valid_binary prec emax a = true -> valid_binary prec emax b = true ->
  valid_binary prec emax c = true -> valid_binary prec emax d = true ->
  is_finite a = true -> is_finite b = true ->
  is_finite c = true -> is_finite d = true ->
  let rn := dy_round prec emax in
  dy_fits prec emax (rn (dy_mul (dy_of a) (dy_of b))) = true ->
  dy_fits prec emax (rn (dy_mul (dy_of c) (dy_of d))) = true ->
  dy_fits prec emax
    (rn (dy_add (rn (dy_mul (dy_of a) (dy_of b)))
                (rn (dy_mul (dy_of c) (dy_of d))))) = true ->
  is_finite (SFadd prec emax (SFmul prec emax a b) (SFmul prec emax c d))
    = true /\
  dy_of (SFadd prec emax (SFmul prec emax a b) (SFmul prec emax c d))
  = rn (dy_add (rn (dy_mul (dy_of a) (dy_of b)))
               (rn (dy_mul (dy_of c) (dy_of d)))).
Proof.
  intros Hprec Hemax Hva Hvb Hvc Hvd Hfa Hfb Hfc Hfd rn H1 H2 H3. subst rn.
  destruct (SFmul_spec prec emax a b Hprec Hemax Hva Hvb Hfa Hfb H1)
    as [Hf1 Hd1].
  destruct (SFmul_spec prec emax c d Hprec Hemax Hvc Hvd Hfc Hfd H2)
    as [Hf2 Hd2].
  rewrite <- Hd1, <- Hd2 in H3 |- *.
  apply SFadd_spec; try assumption.
  - rewrite Hd1. apply dy_round_idem. exact Hprec.
  - rewrite Hd2. apply dy_round_idem. exact Hprec.
Qed.

Lemma valid32_in_range (x : spec_float) :
  valid_binary IEEE.prec32 IEEE.emax32 x = true -> is_finite x = true ->
  in_range32 (dy_of x).
Proof.
  intros Hv Hf. destruct x as [s|s| |s m e]; try discriminate Hf;
    unfold in_range32; cbn [dy_of mant expo].
  - cbn. lia.
  - cbn [valid_binary] in Hv.
    destruct (bounded32_inv m e Hv) as (_ & Hd & He).
    pose proof (digits2_pos_bounds m) as [_ Hhi].
    assert (2 ^ Z.pos (digits2_pos m) <= 2 ^ 24)
      by (apply Z.pow_le_mono_r; lia).
    split; [destruct s; cbn; lia | lia].
Qed.

Lemma product_in_range (x y : dyadic) :
  in_range32 x -> in_range32 y -> in_product_range (dy_mul x y).
Proof.
  intros [Hx Hex] [Hy Hey]. unfold in_product_range, dy_mul.
  cbn [mant expo]. split; [|lia].
  rewrite Z.abs_mul. change (2 ^ 48) with (2 ^ 24 * 2 ^ 24).
  pose proof (Z.abs_nonneg (mant x)). pose proof (Z.abs_nonneg (mant y)).
  nia.
Qed.

(** A product of two binary32 data is a binary64 number: rounding it to
    binary64 changes how it is written at most, and stays in range. *)
Lemma product_exact_in_binary64 (x : dyadic) :
  in_product_range x ->
  dy_same (rn64 x) x /\ dy_fits IEEE.prec64 IEEE.emax64 (rn64 x) = true.
Proof.
  intros [Hm He].
  assert (HE : fexp IEEE.prec64 IEEE.emax64
                 (Zdigits2 (Z.abs (mant x)) + expo x) <= expo x).
  { rewrite fexp_spec. unfold emin, IEEE.prec64, IEEE.emax64.
    destruct (Z.eq_dec (mant x) 0) as [H0|H0].
    - rewrite H0. change (Zdigits2 (Z.abs 0)) with 0. lia.
    - pose proof (Zdigits2_le (Z.abs (mant x)) 48 ltac:(lia) ltac:(lia) Hm).
      lia. }
  destruct (dy_round_exact IEEE.prec64 IEEE.emax64 x ltac:(reflexivity) HE)
    as [Hs Hx].
  split; [exact Hs|]. unfold dy_fits.
  destruct (Z.eq_dec (mant x) 0) as [H0|H0].
  - destruct x as [m e]. cbn [mant] in H0. subst m. rewrite dy_round_0.
    reflexivity.
  - rewrite (Hx H0). apply Z.leb_le. unfold IEEE.prec64, IEEE.emax64 in *.
    lia.
Qed.

Lemma dy_round_expo_le (prec emax : Z) (x : dyadic) :
  expo (dy_round prec emax x)
  <= Z.max 0 (fexp prec emax (Zdigits2 (Z.abs (mant x)) + expo x) + 1).
Proof.
  unfold dy_round.
  destruct (_ =? 0); [cbn; lia|].
  destruct (_ =? 2 ^ prec); cbn [expo]; lia.
Qed.

(** The sum of two such products, rounded to binary64, is in range. *)
Lemma product_sum_fits_binary64 (x y : dyadic) :
  in_product_range x -> in_product_range y ->
  dy_fits IEEE.prec64 IEEE.emax64 (rn64 (dy_add x y)) = true.
Proof.
  intros [Hx Hex] [Hy Hey]. unfold dy_fits. apply Z.leb_le.
  pose proof (dy_round_expo_le IEEE.prec64 IEEE.emax64 (dy_add x y)) as Hle.
  rewrite fexp_spec in Hle.
  assert (Hd : Zdigits2 (Z.abs (mant (dy_add x y))) + expo (dy_add x y)
               <= 257).
  { unfold dy_add. cbn [mant expo].
    set (ez := Z.min (expo x) (expo y)).
    set (S := mant x * 2 ^ (expo x - ez) + mant y * 2 ^ (expo y - ez)).
    destruct (Z.eq_dec S 0) as [H0|H0];
      [rewrite H0; change (Zdigits2 (Z.abs 0)) with 0; lia|].
    assert (Z.abs S < 2 ^ (257 - ez)); [|
      pose proof (Zdigits2_le (Z.abs S) (257 - ez) ltac:(lia) ltac:(lia)
                    ltac:(assumption)); lia].
    assert (Hbx : Z.abs (mant x * 2 ^ (expo x - ez)) < 2 ^ (256 - ez)).
    { rewrite Z.abs_mul, (Z.abs_eq (2 ^ _)) by (apply Z.pow_nonneg; lia).
      pose proof (Z.pow_pos_nonneg 2 (expo x - ez) ltac:(lia) ltac:(lia)).
      assert (2 ^ 48 * 2 ^ (expo x - ez) <= 2 ^ (256 - ez)).
      { rewrite <- Z.pow_add_r by lia. apply Z.pow_le_mono_r; lia. }
      pose proof (Z.abs_nonneg (mant x)). nia. }
    assert (Hby : Z.abs (mant y * 2 ^ (expo y - ez)) < 2 ^ (256 - ez)).
    { rewrite Z.abs_mul, (Z.abs_eq (2 ^ _)) by (apply Z.pow_nonneg; lia).
      pose proof (Z.pow_pos_nonneg 2 (expo y - ez) ltac:(lia) ltac:(lia)).
      assert (2 ^ 48 * 2 ^ (expo y - ez) <= 2 ^ (256 - ez)).
      { rewrite <- Z.pow_add_r by lia. apply Z.pow_le_mono_r; lia. }
      pose proof (Z.abs_nonneg (mant y)). nia. }
    replace (257 - ez) with (Z.succ (256 - ez)) by lia.
    rewrite Z.pow_succ_r by lia. subst S. lia. }
  unfold emin, IEEE.prec64, IEEE.emax64 in *. lia.
Qed.

(** Widening: a valid binary64 datum for the same number. *)
Lemma widen_spec (x : spec_float) :
  valid_binary IEEE.prec32 IEEE.emax32 x = true -> is_finite x = true ->
  let w := IEEE.convert IEEE.prec64 IEEE.emax64 x in
  valid_binary IEEE.prec64 IEEE.emax64 w = true /\
  is_finite w = true /\
  dy_same (dy_of w) (dy_of x).
Proof.
  intros Hv Hf w. subst w.
  destruct x as [s|s| |s m e]; try discriminate Hf; cbn [IEEE.convert].
  - repeat split. apply dy_same_refl.
  - cbn [valid_binary] in Hv. rewrite (widen_finite s m e Hv).
    destruct (bounded32_inv m e Hv) as (_ & Hd & He).
    set (k := Z.to_pos (53 - Z.pos (digits2_pos m))).
    assert (Hk : Z.pos k = 53 - Z.pos (digits2_pos m))
      by (apply Z2Pos.id; lia).
    split; [|split; [reflexivity|]].
    + cbn [valid_binary]. unfold bounded, canonical_mantissa.
      rewrite digits2_pos_shl, Pos2Z.inj_add, Hk. rewrite fexp_spec.
      unfold emin, IEEE.prec64, IEEE.emax64.
      apply andb_true_iff. split; [apply Z.eqb_eq | apply Z.leb_le]; lia.
    + cbn [dy_of].
      replace (Dy (cond_Zopp s (Z.pos (Pos.iter xO m k)))
                  (Z.pos (digits2_pos m) + e - 53))
        with (dy_shift (Z.pos k) (Dy (cond_Zopp s (Z.pos m)) e)).
      * apply dy_same_shift. lia.
      * unfold dy_shift. cbn [mant expo]. rewrite shl_value.
        f_equal; [destruct s; cbn; lia | lia].
Qed.

(** The double-intermediate step: both products are exact, the sum is
    rounded to binary64 and then to binary32. *)
Lemma mam_widened (a b c d : spec_float) :
  valid_binary IEEE.prec32 IEEE.emax32 a = true ->
  valid_binary IEEE.prec32 IEEE.emax32 b = true ->
  valid_binary IEEE.prec32 IEEE.emax32 c = true ->
  valid_binary IEEE.prec32 IEEE.emax32 d = true ->
  is_finite a = true -> is_finite b = true ->
  is_finite c = true -> is_finite d = true ->
  let exact := dy_add (dy_mul (dy_of a) (dy_of b))
                      (dy_mul (dy_of c) (dy_of d)) in
  let w := IEEE.convert IEEE.prec64 IEEE.emax64 in
  let sum := SFadd IEEE.prec64 IEEE.emax64
               (SFmul IEEE.prec64 IEEE.emax64 (w a) (w b))
               (SFmul IEEE.prec64 IEEE.emax64 (w c) (w d)) in
  (is_finite sum = true /\ dy_of sum = rn64 exact) /\
  (dy_fits IEEE.prec32 IEEE.emax32 (rn32 (rn64 exact)) = true ->
   is_finite (IEEE.convert IEEE.prec32 IEEE.emax32 sum) = true /\
   dy_of (IEEE.convert IEEE.prec32 IEEE.emax32 sum) = rn32 (rn64 exact)).
Proof.
  intros Hva Hvb Hvc Hvd Hfa Hfb Hfc Hfd exact w sum.
  destruct (widen_spec a Hva Hfa) as (Hwa & Hfwa & Hsa).
  destruct (widen_spec b Hvb Hfb) as (Hwb & Hfwb & Hsb).
  destruct (widen_spec c Hvc Hfc) as (Hwc & Hfwc & Hsc).
  destruct (widen_spec d Hvd Hfd) as (Hwd & Hfwd & Hsd).
  fold (w a) in *. fold (w b) in *. fold (w c) in *. fold (w d) in *.
  pose proof (product_in_range _ _ (valid32_in_range a Hva Hfa)
                (valid32_in_range b Hvb Hfb)) as Hr1.
  pose proof (product_in_range _ _ (valid32_in_range c Hvc Hfc)
                (valid32_in_range d Hvd Hfd)) as Hr2.
  destruct (product_exact_in_binary64 _ Hr1) as [Hx1 Hfit1].
  destruct (product_exact_in_binary64 _ Hr2) as [Hx2 Hfit2].
  assert (Hp1 : rn64 (dy_mul (dy_of (w a)) (dy_of (w b)))
                = rn64 (dy_mul (dy_of a) (dy_of b)))
    by (apply dy_round_same, dy_mul_same; assumption).
  assert (Hp2 : rn64 (dy_mul (dy_of (w c)) (dy_of (w d)))
                = rn64 (dy_mul (dy_of c) (dy_of d)))
    by (apply dy_round_same, dy_mul_same; assumption).
  destruct (SFmul_spec IEEE.prec64 IEEE.emax64 (w a) (w b)
              ltac:(reflexivity) ltac:(reflexivity) Hwa Hwb Hfwa Hfwb)
    as [Hf1 Hd1]; [rewrite Hp1; exact Hfit1|].
  destruct (SFmul_spec IEEE.prec64 IEEE.emax64 (w c) (w d)
              ltac:(reflexivity) ltac:(reflexivity) Hwc Hwd Hfwc Hfwd)
    as [Hf2 Hd2]; [rewrite Hp2; exact Hfit2|].
  rewrite Hp1 in Hd1. rewrite Hp2 in Hd2.
  assert (Hsum : rn64 (dy_add (rn64 (dy_mul (dy_of a) (dy_of b)))
                              (rn64 (dy_mul (dy_of c) (dy_of d))))
                 = rn64 exact)
    by (apply dy_round_same, dy_add_same; assumption).
  assert (Hs : is_finite sum = true /\ dy_of sum = rn64 exact).
  { subst sum. rewrite <- Hsum, <- Hd1, <- Hd2.
    apply SFadd_spec; try assumption; try reflexivity.
    - rewrite Hd1. apply dy_round_idem. reflexivity.
    - rewrite Hd2. apply dy_round_idem. reflexivity.
    - rewrite Hd1, Hd2. rewrite Hsum.
      apply product_sum_fits_binary64; assumption. }
  split; [exact Hs|]. intros Hfit. destruct Hs as [Hfs Hds].
  rewrite <- Hds in Hfit |- *.
  apply convert_spec; [reflexivity | exact Hfs | exact Hfit].
Qed.

(** ** The dyadic operations are the exact ones *)

(** A finite datum denotes the rational number that [IEEE.SF2Q] gives. *)
Lemma dy_value_of (x : spec_float) : (dy_value (dy_of x) == IEEE.SF2Q x)%Q.
Proof.
  destruct x as [s|s| |[] m e]; unfold dy_value, IEEE.SF2Q;
    cbn [dy_of mant expo cond_Zopp]; try reflexivity.
  change (Z.neg m) with (- Z.pos m). rewrite inject_Z_opp. ring.
Qed.

Lemma dy_mul_value (x y : dyadic) :
  (dy_value (dy_mul x y) == dy_value x * dy_value y)%Q.
Proof.
  unfold dy_value, dy_mul. cbn [mant expo].
  assert (H2 : ~ (2 == 0)%Q) by discriminate.
  rewrite inject_Z_mult, (Qpower_plus _ _ _ H2). ring.
Qed.

Lemma dy_value_aligned (x : dyadic) (e0 : Z) :
  e0 <= expo x ->
  (inject_Z (aligned x e0) * Qpower 2 e0 == dy_value x)%Q.
Proof.
  intros He. unfold aligned, dy_value.
  assert (H2 : ~ (2 == 0)%Q) by discriminate.
  rewrite inject_Z_mult, Zpower_Qpower by lia.
  change (inject_Z 2) with 2%Q.
  rewrite <- Qmult_assoc, <- (Qpower_plus _ _ _ H2).
  replace (expo x - e0 + e0) with (expo x) by lia. reflexivity.
Qed.

Lemma dy_add_value (x y : dyadic) :
  (dy_value (dy_add x y) == dy_value x + dy_value y)%Q.
Proof.
  rewrite <- (dy_value_aligned x (Z.min (expo x) (expo y))) by lia.
  rewrite <- (dy_value_aligned y (Z.min (expo x) (expo y))) by lia.
  unfold dy_value, dy_add, aligned. cbn [mant expo].
  rewrite inject_Z_plus. ring.
Qed.

(** Two representations of one number have one value. *)
Lemma dy_same_value (x y : dyadic) :
  dy_same x y -> (dy_value x == dy_value y)%Q.
Proof.
  intros (e0 & Hx & Hy & H).
  rewrite <- (dy_value_aligned x e0 Hx), <- (dy_value_aligned y e0 Hy), H.
  reflexivity.
Qed.

(** The rounding of the quotient is a nearest integer, and the even one of
    the two when the quotient is half-way. *)
Lemma nearest_even_nearest (M n : Z) :
  0 <= n ->
  2 * Z.abs (nearest_even M n * 2 ^ n - M) <= 2 ^ n /\
  (2 * Z.abs (nearest_even M n * 2 ^ n - M) = 2 ^ n ->
   Z.even (nearest_even M n) = true).
Proof.
  intros Hn. unfold nearest_even.
  pose proof (Z.pow_pos_nonneg 2 n ltac:(lia) Hn) as Hp.
  pose proof (Z.div_mod M (2 ^ n) ltac:(lia)) as Hdm.
  pose proof (Z.mod_pos_bound M (2 ^ n) Hp) as Hr.
  set (q := M / 2 ^ n) in *. set (r := M mod 2 ^ n) in *.
  destruct (Z.compare_spec (2 * r) (2 ^ n)) as [Hc|Hc|Hc].
  - destruct (Z.even q) eqn:Hev.
    + split; [nia | intros _; exact Hev].
    + split; [nia|]. intros _.
      rewrite Z.add_1_r, Z.even_succ, <- Z.negb_even, Hev. reflexivity.
  - split; [nia | intros Heq; exfalso; nia].
  - split; [nia | intros Heq; exfalso; nia].
Qed.

(** Where the grid of the format is coarser than the representation of
    [x], the rounded number is within half a grid step of [x]: here both
    are written with the exponent of [x]. *)
Lemma dy_round_nearest (prec emax : Z) (x : dyadic) :
  0 < prec ->
  let E := fexp prec emax (Zdigits2 (Z.abs (mant x)) + expo x) in
  expo x < E ->
  2 * Z.abs (aligned (dy_round prec emax x) (expo x) - mant x)
  <= 2 ^ (E - expo x).
Proof.
  intros Hprec E HE. unfold dy_round. fold E.
  unfold scaled. destruct (Z.leb_spec E (expo x)) as [Hle|_]; [lia|].
  destruct (nearest_even_nearest (Z.abs (mant x)) (E - expo x) ltac:(lia))
    as [Hn _].
  set (m := nearest_even (Z.abs (mant x)) (E - expo x)) in *.
  set (n := E - expo x) in *.
  assert (Hp : 0 < 2 ^ n) by (apply Z.pow_pos_nonneg; lia).
  destruct (Z.eqb_spec m 0) as [Hm0|Hm0].
  - unfold aligned. cbn [mant expo]. rewrite Hm0 in Hn. lia.
  - destruct (Z.eqb_spec m (2 ^ prec)) as [Hm1|Hm1];
      unfold aligned; cbn [mant expo].
    + replace (E + 1 - expo x) with (n + 1) by lia.
      rewrite Z.pow_add_r, Z.pow_1_r by lia.
      assert (H2 : 2 ^ prec = 2 ^ (prec - 1) * 2).
      { rewrite <- (Z.pow_1_r 2) at 3. rewrite <- Z.pow_add_r by lia.
        f_equal. lia. }
      rewrite Hm1, H2 in Hn.
      destruct (mant x) as [|M|M]; cbn [Z.sgn Z.abs] in *; lia.
    + fold n.
      destruct (mant x) as [|M|M]; cbn [Z.sgn Z.abs] in *; lia.
Qed.

(** C2. The three [muladdmul] are the three precision strategies, with
    [float] as binary32 and [double] as binary64, every operation being
    carried out in the type of its operands and rounded once, to nearest
    even; each product is rounded before the sum is formed, as the source
    writes them, and not fused with it.  On finite operands, and as long
    as no rounded intermediate leaves the range of its format:
    - [FloatConcatMatrixBench::muladdmul] stores the binary32 rounding of
      the sum of the binary32 roundings of [a*b] and of [c*d];
    - [FloatDoubleConcatMatrixBench::muladdmul] stores the binary32
      rounding of the binary64 rounding of the exact [a*b + c*d]: the
      widened products are exact and the binary64 sum cannot overflow, so
      the narrowing of [SkDoubleToFloat] is the only range condition;
    - [DoubleConcatMatrixBench::muladdmul] stores the binary64 rounding of
      the sum of the binary64 roundings of [a*b] and of [c*d];
    - [SkDoubleToFloat] rounds the number its argument denotes to
      binary32.
    The strategies are pairwise distinct: on the operands of [Sample] the
    first two store different numbers, and the third stores a number that
    is not the widening of what the second stores. *)
Theorem muladdmul_precision_strategies :
  (forall (a b c d : IEEE.float32) (p : ptr)
          (w : World (@FloatConcatMatrixBench.t ieee_arith)),
      operand32 a -> operand32 b -> operand32 c -> operand32 d ->
      let ab := rn32 (dy_mul (num32 a) (num32 b)) in
      let cd := rn32 (dy_mul (num32 c) (num32 d)) in
      fits32 ab = true -> fits32 cd = true ->
      fits32 (rn32 (dy_add ab cd)) = true ->
      let r := rd (@FloatConcatMatrixBench.muladdmul ieee_arith a b c d p w) p in
      is_finite (IEEE.bits32 r) = true /\
      num32 r = rn32 (dy_add ab cd)) /\
  (forall (a b c d : IEEE.float32) (p : ptr)
          (w : World (@FloatDoubleConcatMatrixBench.t ieee_arith)),
      operand32 a -> operand32 b -> operand32 c -> operand32 d ->
      let exact := dy_add (dy_mul (num32 a) (num32 b))
                          (dy_mul (num32 c) (num32 d)) in
      fits32 (rn32 (rn64 exact)) = true ->
      let r := rd (@FloatDoubleConcatMatrixBench.muladdmul ieee_arith
                     a b c d p w) p in
      is_finite (IEEE.bits32 r) = true /\
      num32 r = rn32 (rn64 exact)) /\
  (forall (a b c d : IEEE.float64) (p : ptr)
          (w : World (@DoubleConcatMatrixBench.t ieee_arith)),
      operand64 a -> operand64 b -> operand64 c -> operand64 d ->
      let ab := rn64 (dy_mul (num64 a) (num64 b)) in
      let cd := rn64 (dy_mul (num64 c) (num64 d)) in
      fits64 ab = true -> fits64 cd = true ->
      fits64 (rn64 (dy_add ab cd)) = true ->
      let r := rd (@DoubleConcatMatrixBench.muladdmul ieee_arith a b c d p w) p in
      is_finite (IEEE.bits64 r) = true /\
      num64 r = rn64 (dy_add ab cd)) /\
  (forall x : IEEE.float64,
      is_finite (IEEE.bits64 x) = true ->
      fits32 (rn32 (num64 x)) = true ->
      is_finite (IEEE.bits32 (@SkDoubleToFloat ieee_arith x)) = true /\
      num32 (@SkDoubleToFloat ieee_arith x) = rn32 (num64 x)) /\
  @mam_float ieee_arith Sample.x1 Sample.x2 Sample.m1 Sample.p1
    <> @mam_float_double ieee_arith Sample.x1 Sample.x2 Sample.m1 Sample.p1 /\
  @mam_double ieee_arith (IEEE.widen Sample.x1) (IEEE.widen Sample.x2)
                         (IEEE.widen Sample.z0) (IEEE.widen Sample.z0)
    <> IEEE.widen (@mam_float_double ieee_arith Sample.x1 Sample.x2
                                                Sample.z0 Sample.z0).
Proof.
  split; [|split; [|split; [|split; [|split]]]].
  - intros [a] [b] [c] [d] p w [Hva Hfa] [Hvb Hfb] [Hvc Hfc] [Hvd Hfd]
           ab cd H1 H2 H3 r.
    subst r ab cd. rewrite (@float_muladdmul_stores ieee_arith).
    unfold num32, valid32 in *. unfold mam_float.
    cbn [fadd fmul ieee_arith]. unfold IEEE.add32, IEEE.mul32.
    cbn [IEEE.bits32] in *.
    exact (mam_in_one_format IEEE.prec32 IEEE.emax32 a b c d eq_refl eq_refl
             Hva Hvb Hvc Hvd Hfa Hfb Hfc Hfd H1 H2 H3).
  - intros [a] [b] [c] [d] p w [Hva Hfa] [Hvb Hfb] [Hvc Hfc] [Hvd Hfd]
           exact H r.
    subst r exact. rewrite (@float_double_muladdmul_stores ieee_arith).
    unfold num32, valid32 in *. unfold mam_float_double.
    unfold SkDoubleToFloat.
    cbn [fadd fmul dadd dmul float_to_double double_to_float ieee_arith].
    unfold IEEE.add64, IEEE.mul64, IEEE.widen, IEEE.narrow.
    cbn [IEEE.bits32 IEEE.bits64] in *.
    exact (proj2 (mam_widened a b c d Hva Hvb Hvc Hvd Hfa Hfb Hfc Hfd) H).
  - intros [a] [b] [c] [d] p w [Hva Hfa] [Hvb Hfb] [Hvc Hfc] [Hvd Hfd]
           ab cd H1 H2 H3 r.
    subst r ab cd. rewrite (@double_muladdmul_stores ieee_arith).
    unfold num64, valid64 in *. unfold mam_double.
    cbn [dadd dmul ieee_arith]. unfold IEEE.add64, IEEE.mul64.
    cbn [IEEE.bits64] in *.
    exact (mam_in_one_format IEEE.prec64 IEEE.emax64 a b c d eq_refl eq_refl
             Hva Hvb Hvc Hvd Hfa Hfb Hfc Hfd H1 H2 H3).
  - intros [x] Hf H.
    unfold num32, num64, SkDoubleToFloat in *.
    cbn [double_to_float ieee_arith]. unfold IEEE.narrow.
    cbn [IEEE.bits32 IEEE.bits64] in *.
    exact (convert_spec IEEE.prec32 IEEE.emax32 x eq_refl Hf H).
  - vm_compute. congruence.
  - vm_compute. congruence.
Qed.

Lemma muladdmul_precision_strategies_witness :
  let w := concat_world 0 (MatrixBench_ctor "sample")
             (vreplicate 9 Sample.z0) (vreplicate 9 Sample.z0)
             (vreplicate 9 Sample.z0) in
  let wd := concat_world 0 (MatrixBench_ctor "sample")
              (vreplicate 9 (IEEE.widen Sample.z0))
              (vreplicate 9 (IEEE.widen Sample.z0))
              (vreplicate 9 (IEEE.widen Sample.z0)) in
  num32 (rd (@FloatConcatMatrixBench.muladdmul ieee_arith
               Sample.x1 Sample.x2 Sample.m1 Sample.p1 Myr.[0] w) Myr.[0])
  = rn32 (dy_add (rn32 (dy_mul (num32 Sample.x1) (num32 Sample.x2)))
                 (rn32 (dy_mul (num32 Sample.m1) (num32 Sample.p1)))) /\
  num32 (rd (@FloatDoubleConcatMatrixBench.muladdmul ieee_arith
               Sample.x1 Sample.x2 Sample.m1 Sample.p1 Myr.[0] w) Myr.[0])
  = rn32 (rn64 (dy_add (dy_mul (num32 Sample.x1) (num32 Sample.x2))
                       (dy_mul (num32 Sample.m1) (num32 Sample.p1)))) /\
  num64 (rd (@DoubleConcatMatrixBench.muladdmul ieee_arith
               (IEEE.widen Sample.x1) (IEEE.widen Sample.x2)
               (IEEE.widen Sample.m1) (IEEE.widen Sample.p1) Myr.[0] wd)
            Myr.[0])
  = rn64 (dy_add (rn64 (dy_mul (num64 (IEEE.widen Sample.x1))
                               (num64 (IEEE.widen Sample.x2))))
                 (rn64 (dy_mul (num64 (IEEE.widen Sample.m1))
                               (num64 (IEEE.widen Sample.p1))))) /\
  num32 (@SkDoubleToFloat ieee_arith (IEEE.widen Sample.x1))
  = rn32 (num64 (IEEE.widen Sample.x1)).
Proof.
  intros w wd.
  destruct muladdmul_precision_strategies as (Hf & Hfd & Hd & Hn & _).
  assert (O32 : forall x : IEEE.float32,
             valid32 x = true -> is_finite (IEEE.bits32 x) = true ->
             operand32 x) by (intros x Hv Hfin; split; assumption).
  assert (O64 : forall x : IEEE.float64,
             valid64 x = true -> is_finite (IEEE.bits64 x) = true ->
             operand64 x) by (intros x Hv Hfin; split; assumption).
  assert (Hx1 : operand32 Sample.x1) by (apply O32; vm_compute; reflexivity).
  assert (Hx2 : operand32 Sample.x2) by (apply O32; vm_compute; reflexivity).
  assert (Hm1 : operand32 Sample.m1) by (apply O32; vm_compute; reflexivity).
  assert (Hp1 : operand32 Sample.p1) by (apply O32; vm_compute; reflexivity).
  assert (Wx1 : operand64 (IEEE.widen Sample.x1))
    by (apply O64; vm_compute; reflexivity).
  assert (Wx2 : operand64 (IEEE.widen Sample.x2))
    by (apply O64; vm_compute; reflexivity).
  assert (Wm1 : operand64 (IEEE.widen Sample.m1))
    by (apply O64; vm_compute; reflexivity).
  assert (Wp1 : operand64 (IEEE.widen Sample.p1))
    by (apply O64; vm_compute; reflexivity).
  split; [|split; [|split]].
  - refine (proj2 (Hf Sample.x1 Sample.x2 Sample.m1 Sample.p1 Myr.[0] w
                      Hx1 Hx2 Hm1 Hp1 _ _ _)); vm_compute; reflexivity.
  - refine (proj2 (Hfd Sample.x1 Sample.x2 Sample.m1 Sample.p1 Myr.[0] w
                       Hx1 Hx2 Hm1 Hp1 _)); vm_compute; reflexivity.
  - refine (proj2 (Hd (IEEE.widen Sample.x1) (IEEE.widen Sample.x2)
                      (IEEE.widen Sample.m1) (IEEE.widen Sample.p1)
                      Myr.[0] wd Wx1 Wx2 Wm1 Wp1 _ _ _));
      vm_compute; reflexivity.
  - refine (proj2 (Hn (IEEE.widen Sample.x1) _ _)); vm_compute; reflexivity.
Defined.
